(** * Request queue, image cache and cache keys of the Jaguar Flux client

    A shallow embedding of the three client-side utilities of
    [node-examples/JaguarFluxAPI.js]:

    - [ImageCache] (module [IC]): a JavaScript [Map] from string keys to
      entries [{value, timestamp, accessCount}], bounded by [maxSize] and
      read through a time-to-live [ttl];
    - [ImageCache.createKey] (module [Key]): [JSON.stringify] of a
      parameter object;
    - [RequestQueue] (module [RQ]): the [add]/[process] pair that keeps at
      most [maxConcurrent] request functions awaiting.

    The numbers a caller configures ([maxSize], [ttl], [maxConcurrent],
    [retryAttempts], the options of a request) are finite JavaScript
    numbers, modelled by the rationals they denote (module [Num]); clock
    values, counters and lengths are integers. [Date.now()] is an explicit
    argument [now] of every cache operation.

    The client itself (module [API]) follows: the constructor of
    [JaguarFluxAPI], its validation functions with those of
    [jaguar-api-types.ts], the parameters of [generateImage] and
    [generateBatch], and the retry loop of [makeRequest]. *)

From Stdlib Require Import ZArith Lia Ascii String.
From Stdlib Require QArith Qround Lqa.
From stdpp Require Import base list strings pretty gmap sorting.

Local Open Scope Z_scope.

(** ** Numbers *)

Module Num.

Import QArith Qround.

(** A finite JavaScript number is modelled by the rational it denotes.
    Clock values, counters and lengths are integers. *)

(** A number is truthy unless it is 0. *)
Definition truthy (x : Q) : bool := negb (Qeq_bool x 0).

(** [x < y] on numbers. *)
Definition Qltb (x y : Q) : bool := negb (Qle_bool y x).

(** [x || d] for an optional number [x]: [undefined] and [0] are falsy. *)
Definition or_else (x : option Q) (d : Q) : Q :=
  match x with
  | Some v => if truthy v then v else d
  | None => d
  end.

(** The integer to which a number is converted where an index is expected
    ([ToIntegerOrInfinity]): the fraction is dropped. *)
Definition to_integer (x : Q) : Z :=
  if Qle_bool 0 x then Qfloor x else Qceiling x.

(** [l.slice(0, end)]: a negative [end] counts from the end of the array,
    and the result stays within the array. *)
Definition slice_to {A : Type} (end_ : Q) (l : list A) : list A :=
  let n := to_integer end_ in
  if (n <? 0)%Z then take (Z.to_nat (Z.of_nat (length l) + n)) l
  else take (Z.to_nat n) l.

(** A number that is an integer. *)
Definition integer (x : Q) : Prop := exists n : Z, x == inject_Z n.

End Num.

(** ** ImageCache *)

Module IC.

Import QArith Qround Num.

Local Open Scope Z_scope.

Section ImageCache.

Context {V : Type}.

(** The entry object built by [set]. *)
Record entry : Type := Entry {
  value : V;
  timestamp : Z;
  accessCount : Z
}.

(** A JavaScript [Map] iterates in insertion order and [set] on a key that
    is already present keeps the key's position: the map is an association
    list in insertion order, with at most one binding per key. *)
Fixpoint map_get (k : string) (m : list (string * entry)) : option entry :=
  match m with
  | [] => None
  | (k', e) :: m' => if String.eqb k' k then Some e else map_get k m'
  end.

Fixpoint map_set (k : string) (e : entry) (m : list (string * entry))
  : list (string * entry) :=
  match m with
  | [] => [(k, e)]
  | (k', e') :: m' =>
      if String.eqb k' k then (k', e) :: m' else (k', e') :: map_set k e m'
  end.

Fixpoint map_delete (k : string) (m : list (string * entry))
  : list (string * entry) :=
  match m with
  | [] => []
  | (k', e') :: m' =>
      if String.eqb k' k then m' else (k', e') :: map_delete k m'
  end.

Definition map_keys (m : list (string * entry)) : list string := m.*1.

(** [this.maxSize], [this.ttl], [this.cache]. *)
Record ImageCache : Type := mkImageCache {
  maxSize : Q;
  ttl : Q;
  cache : list (string * entry)
}.

(** The [options] argument of the constructor: each field may be absent. *)
Record CacheOptions : Type := mkCacheOptions {
  opt_maxSize : option Q;
  opt_ttl : option Q
}.

(** [constructor(options = {})] *)
Definition new (options : CacheOptions) : ImageCache :=
  {| maxSize := or_else (opt_maxSize options) 100;
     ttl := or_else (opt_ttl options) 3600000;
     cache := [] |}.

Definition with_cache (c : ImageCache) (m : list (string * entry)) : ImageCache :=
  {| maxSize := maxSize c; ttl := ttl c; cache := m |}.

(** [entries.sort((a, b) => a[1].timestamp - b[1].timestamp)]:
    [Array.prototype.sort] is stable, so entries with equal timestamps stay
    in the order of the array, which is the insertion order of the map.
    The result of a stable sort does not depend on the algorithm; it is
    written here as an insertion sort that puts an element in front of the
    later elements that compare equal to it. *)
Fixpoint insert_by_timestamp (x : string * entry) (l : list (string * entry))
  : list (string * entry) :=
  match l with
  | [] => [x]
  | y :: l' =>
      if timestamp x.2 <=? timestamp y.2 then x :: y :: l'
      else y :: insert_by_timestamp x l'
  end.

Fixpoint sort_by_timestamp (l : list (string * entry)) : list (string * entry) :=
  match l with
  | [] => []
  | x :: l' => insert_by_timestamp x (sort_by_timestamp l')
  end.

(** [toRemove.forEach(([key]) => this.cache.delete(key))] *)
Definition delete_all (toRemove : list (string * entry)) (m : list (string * entry))
  : list (string * entry) :=
  foldl (fun acc kv => map_delete kv.1 acc) m toRemove.

(** [cleanup()]: [this.cache.size] is an integer, [this.maxSize] a
    number; [slice] drops the fraction of its bound. *)
Definition cleanup (c : ImageCache) : ImageCache :=
  let size := inject_Z (Z.of_nat (length (cache c))) in
  if Qle_bool size (maxSize c) then c
  else
    let entries := sort_by_timestamp (cache c) in
    let toRemove := slice_to (size - maxSize c)%Q entries in
    with_cache c (delete_all toRemove (cache c)).

(** [set(key, value)], with [now] the value of [Date.now()]. *)
Definition set (key : string) (v : V) (now : Z) (c : ImageCache) : ImageCache :=
  let entry := {| value := v; timestamp := now; accessCount := 1 |} in
  cleanup (with_cache c (map_set key entry (cache c))).

(** [get(key)]: the result ([None] for [null]) and the cache afterwards.
    [entry.accessCount++] updates the entry object held by the map. *)
Definition get (key : string) (now : Z) (c : ImageCache) : option V * ImageCache :=
  match map_get key (cache c) with
  | None => (None, c)
  | Some e =>
      if Qltb (ttl c) (inject_Z (now - timestamp e)) then
        (None, with_cache c (map_delete key (cache c)))
      else
        (Some (value e),
         with_cache c
           (map_set key
              {| value := value e; timestamp := timestamp e;
                 accessCount := accessCount e + 1 |}
              (cache c)))
  end.

(** The order in which [cleanup] considers keys for removal. *)
Definition eviction_order (c : ImageCache) : list string :=
  map_keys (sort_by_timestamp (cache c)).

(** Calls made on a cache, each with the clock value it observes. *)
Inductive call : Type :=
  | CallSet (key : string) (v : V) (now : Z)
  | CallGet (key : string) (now : Z).

Definition call_time (o : call) : Z :=
  match o with
  | CallSet _ _ now => now
  | CallGet _ now => now
  end.

Definition do_call (c : ImageCache) (o : call) : ImageCache :=
  match o with
  | CallSet k v now => set k v now c
  | CallGet k now => (get k now c).2
  end.

Definition do_calls (c : ImageCache) (os : list call) : ImageCache :=
  foldl do_call c os.

(** The clock never goes back: each call observes a time no earlier than
    the call before it, and the last one a time no later than [now]. *)
Fixpoint chronological (os : list call) (now : Z) : bool :=
  match os with
  | [] => true
  | o :: os' =>
      (call_time o <=? match os' with [] => now | o' :: _ => call_time o' end)
      && chronological os' now
  end.

(** The comparison made by the sort of [cleanup]. *)
Definition older (x y : string * entry) : Prop := timestamp x.2 <= timestamp y.2.

(** The number of entries down to which [cleanup] cuts the map: the size
    is an integer, so this is the least integer that is not below
    [maxSize]. *)
Definition capacity (c : ImageCache) : Z := Qceiling (maxSize c).

(** The greatest age at which [get] returns an entry: an age is an
    integer, so this is the greatest integer that is not above [ttl]. *)
Definition lifetime (c : ImageCache) : Z := Qfloor (ttl c).

(** What holds of the cache at clock value [t] as long as [maxSize] is not
    negative and the clock has not gone back: one binding per key, no more
    entries than the capacity, no timestamp later than [t]. *)
Definition consistent_at (t : Z) (c : ImageCache) : Prop :=
  NoDup (map_keys (cache c)) /\
  Z.of_nat (length (cache c)) <= capacity c /\
  Forall (fun kv => timestamp kv.2 <= t) (cache c).

(** An option that is left out or is not negative. *)
Definition nonnegative (x : option Q) : Prop :=
  match x with
  | None => True
  | Some n => (0 <= n)%Q
  end.

End ImageCache.

End IC.

(** ** ImageCache.createKey *)

Module Key.

(** The values [JSON.stringify] is applied to. An object is the list of its
    own enumerable string-keyed properties in the order the serializer
    visits them, which for names that are not array indices is the order in
    which the properties were created. Numbers are the integers (printed in
    decimal, as JavaScript prints integers below 10^21); strings are
    sequences of 8-bit code units. *)
#[warnings="-register-all"]
Inductive json : Type :=
  | JUndefined
  | JNull
  | JBool (b : bool)
  | JNumber (n : Z)
  | JString (s : string)
  | JArray (items : list json)
  | JObject (props : list (string * json)).

Definition hex_digit (n : N) : ascii :=
  default "0"%char (String.get (N.to_nat n) "0123456789abcdef").

(** One code unit inside a quoted JSON string. *)
Definition escape_char (c : ascii) : string :=
  let n := N_of_ascii c in
  if (n =? 8)%N then "\b"
  else if (n =? 9)%N then "\t"
  else if (n =? 10)%N then "\n"
  else if (n =? 12)%N then "\f"
  else if (n =? 13)%N then "\r"
  else if (n =? 34)%N then String "\" (String c EmptyString)
  else if (n =? 92)%N then String c (String c EmptyString)
  else if (n <? 32)%N then
    "\u00" +:+ String (hex_digit (n / 16)) (String (hex_digit (n mod 16)) EmptyString)
  else String c EmptyString.

Fixpoint escape (s : string) : string :=
  match s with
  | EmptyString => EmptyString
  | String c s' => escape_char c +:+ escape s'
  end.

Definition dquote : string := String (ascii_of_nat 34) EmptyString.

Definition quote (s : string) : string := dquote +:+ escape s +:+ dquote.

(** [JSON.stringify(v)] without replacer or indentation; [None] is the
    result [undefined]. A property whose value serializes to [undefined] is
    left out of its object; such an item of an array is printed [null]. *)
Fixpoint stringify (v : json) : option string :=
  match v with
  | JUndefined => None
  | JNull => Some "null"
  | JBool b => Some (if b then "true" else "false")
  | JNumber n => Some (pretty n)
  | JString s => Some (quote s)
  | JArray items =>
      Some ("[" +:+ String.concat ","
              (map (fun x => default "null" (stringify x)) items) +:+ "]")
  | JObject props =>
      Some ("{" +:+ String.concat ","
              (omap (fun kv => (fun s => quote kv.1 +:+ ":" +:+ s) <$> stringify kv.2)
                    props) +:+ "}")
  end.

(** [createKey(options)] *)
Definition createKey (options : json) : option string := stringify options.

(** Reading a property of an object, [o[k]]. *)
Fixpoint prop_get (k : string) (props : list (string * json)) : option json :=
  match props with
  | [] => None
  | (k', x) :: props' => if String.eqb k' k then Some x else prop_get k props'
  end.

(** Two objects with the same key-value pairs, whatever the order of the
    keys: every name reads the same in both. *)
Definition same_pairs (p1 p2 : list (string * json)) : Prop :=
  forall k, prop_get k p1 = prop_get k p2.

(** The value of the expression [o[k]]: [undefined] when the object has no
    property [k]. *)
Definition read (k : string) (props : list (string * json)) : json :=
  default JUndefined (prop_get k props).

Definition is_undefined (v : json) : bool :=
  match v with JUndefined => true | _ => false end.

(** The properties of an object whose value is not [undefined], and their
    names, in the order of the object. *)
Definition defined (props : list (string * json)) : list (string * json) :=
  filter (fun kv => is_undefined kv.2 = false) props.

Definition defined_names (props : list (string * json)) : list string :=
  (defined props).*1.

End Key.

(** ** RequestQueue *)

Module RQ.

Import QArith Qround Num.

Local Open Scope Z_scope.

Section RequestQueue.

(** Results and errors of request functions. *)
Context {T E : Type}.

(** What the call [requestFunction()] does inside the [try] block: it
    throws, or it returns a value (a promise, usually) on which [await]
    suspends [process] until the value settles. *)
Inductive request : Type :=
  | Throws (error : E)
  | Awaits.

(** How an awaited value settles. *)
Inductive settlement : Type :=
  | Succeeds (result : T)
  | Fails (error : E).

(** State of a promise returned by [add], once it is settled. *)
Inductive outcome : Type :=
  | Resolved (result : T)
  | Rejected (error : E).

(** The object pushed by [add]: the [resolve]/[reject] pair is that of the
    promise [add] returns, identified by the number of the [add] call. *)
Record queued : Type := mkQueued {
  requestFunction : request;
  promise : nat
}.

(** [maxConcurrent], [running] and [queue] are the fields of the object.
    The other fields describe its surroundings: the [process] calls
    suspended at their [await] (by the promise of their entry), the settled
    promises, the promises in the order their request functions were
    called, the number of [add] calls made, and every value [running] has
    taken, latest first. *)
Record state : Type := mkState {
  maxConcurrent : Q;
  running : Z;
  queue : list queued;
  awaiting : list nat;
  settled : gmap nat outcome;
  started : list nat;
  added : nat;
  counter : list Z
}.

(** [constructor(maxConcurrent = 3)] *)
Definition new (maxConcurrent : option Q) : state :=
  {| maxConcurrent := default 3%Q maxConcurrent; running := 0; queue := [];
     awaiting := []; settled := ∅; started := []; added := 0;
     counter := [0] |}.

(** [this.running++] and [this.running--] *)
Definition set_running (r : Z) (s : state) : state :=
  {| maxConcurrent := maxConcurrent s; running := r; queue := queue s;
     awaiting := awaiting s; settled := settled s; started := started s;
     added := added s; counter := r :: counter s |}.

Definition set_queue (q : list queued) (s : state) : state :=
  {| maxConcurrent := maxConcurrent s; running := running s; queue := q;
     awaiting := awaiting s; settled := settled s; started := started s;
     added := added s; counter := counter s |}.

(** [resolve(result)] and [reject(error)]: settling a promise that is
    already settled does nothing. *)
Definition settle (p : nat) (o : outcome) (s : state) : state :=
  {| maxConcurrent := maxConcurrent s; running := running s; queue := queue s;
     awaiting := awaiting s;
     settled := match settled s !! p with
                | Some _ => settled s
                | None => <[p := o]> (settled s)
                end;
     started := started s; added := added s; counter := counter s |}.

(** The request function of an entry is called. *)
Definition call (e : queued) (s : state) : state :=
  {| maxConcurrent := maxConcurrent s; running := running s; queue := queue s;
     awaiting := awaiting s; settled := settled s;
     started := started s ++ [promise e]; added := added s;
     counter := counter s |}.

Definition set_awaiting (a : list nat) (s : state) : state :=
  {| maxConcurrent := maxConcurrent s; running := running s; queue := queue s;
     awaiting := a; settled := settled s; started := started s;
     added := added s; counter := counter s |}.

(** The start of a dispatch: [this.running++], [this.queue.shift()] (the
    queue becomes [rest]) and the call of the request function. *)
Definition dispatch (e : queued) (rest : list queued) (s : state) : state :=
  call e (set_queue rest (set_running (running s + 1) s)).

(** [this.running--] in the [finally] block. *)
Definition release (s : state) : state := set_running (running s - 1) s.

(** [process()], up to its [await]. [q] is [this.queue]; the call made in
    the [finally] block sees the queue without its head, so the recursion
    is on the queue. When the request function throws, the [catch] and
    [finally] blocks run at once, and the next call of [process] with them. *)
Fixpoint process_queue (q : list queued) (s : state) : state :=
  match q with
  | [] => s
  | e :: rest =>
      if Qle_bool (maxConcurrent s) (inject_Z (running s)) then s
      else
        let s1 := dispatch e rest s in
        match requestFunction e with
        | Throws error =>
            process_queue rest (release (settle (promise e) (Rejected error) s1))
        | Awaits => set_awaiting (awaiting s1 ++ [promise e]) s1
        end
  end.

Definition process (s : state) : state := process_queue (queue s) s.

(** [add(requestFunction)]: the promise it returns, and the state after the
    executor has pushed the entry and called [process]. *)
Definition add (f : request) (s : state) : nat * state :=
  let p := added s in
  let s1 :=
    {| maxConcurrent := maxConcurrent s; running := running s;
       queue := queue s ++ [{| requestFunction := f; promise := p |}];
       awaiting := awaiting s; settled := settled s; started := started s;
       added := S p; counter := counter s |} in
  (p, process s1).

(** The rest of [process] after its [await], for the entry of promise [p]:
    [resolve] or [reject], then the [finally] block. There is nothing to
    resume when no call of [process] is waiting for [p]. *)
Definition resume (p : nat) (r : settlement) (s : state) : option state :=
  if bool_decide (p ∈ awaiting s) then
    let s1 := set_awaiting (filter (fun p' => p' ≠ p) (awaiting s)) s in
    let s2 := settle p match r with
                       | Succeeds x => Resolved x
                       | Fails error => Rejected error
                       end s1 in
    Some (process (release s2))
  else None.

(** What happens to a queue: a caller submits a request function, or an
    awaited value settles. *)
Inductive action : Type :=
  | Add (f : request)
  | Settle (p : nat) (r : settlement).

Definition step (s : state) (a : action) : option state :=
  match a with
  | Add f => Some (add f s).2
  | Settle p r => resume p r s
  end.

Fixpoint run (s : state) (acts : list action) : option state :=
  match acts with
  | [] => Some s
  | a :: acts' =>
      match step s a with
      | Some s' => run s' acts'
      | None => None
      end
  end.

Definition is_add (a : action) : bool :=
  match a with
  | Add _ => true
  | Settle _ _ => false
  end.

(** The number of [add] calls in a list of actions. *)
Definition submissions (acts : list action) : nat :=
  length (List.filter is_add acts).

(** What holds of the queue and its surroundings between two actions:
    the promises started and the promises still queued are, in this order,
    the promises of all [add] calls; the suspended calls of [process] are
    distinct started entries, [running] counts them, and a promise is not
    settled while its entry is queued or its request is awaited. *)
Record invariant (s : state) : Prop := mkInvariant {
  inv_order : started s ++ (promise <$> queue s) = seq 0 (added s);
  inv_awaiting : NoDup (awaiting s) /\ forall p, p ∈ awaiting s -> p ∈ started s;
  inv_running : running s = Z.of_nat (length (awaiting s));
  inv_pending :
    forall p, p ∈ awaiting s \/ p ∉ started s -> settled s !! p = None
}.

(** The entries at the head of a queue whose request functions throw when
    they are called, each with its promise and its error. *)
Fixpoint throwers (q : list queued) : list (nat * E) :=
  match q with
  | [] => []
  | e :: rest =>
      match requestFunction e with
      | Throws error => (promise e, error) :: throwers rest
      | Awaits => []
      end
  end.

(** The queue behind them: empty, or headed by an entry whose request is
    awaited. *)
Definition behind_throwers (q : list queued) : list queued :=
  drop (length (throwers q)) q.

(** The number of requests at which [running >= maxConcurrent] holds:
    [running] is an integer, so this is the least integer that is not
    below [maxConcurrent]. *)
Definition limit (s : state) : Z := Qceiling (maxConcurrent s).

(** [running] is, and has always been, at most the limit. *)
Definition bounded (s : state) : Prop :=
  running s <= limit s /\
  Forall (fun r => r <= limit s) (counter s).

End RequestQueue.

End RQ.

(** ** JaguarFluxAPI *)

Module API.

Import QArith Qround Num.

Local Open Scope string_scope.

(** *** Strings *)

(** White space and line terminators among the code units below 256: tab,
    line feed, vertical tab, form feed, carriage return, space and
    no-break space. *)
Definition is_white_space (c : ascii) : bool :=
  let n := N_of_ascii c in
  ((9 <=? n) && (n <=? 13) || (n =? 32) || (n =? 160))%N.

Fixpoint trim_start (s : string) : string :=
  match s with
  | EmptyString => EmptyString
  | String c s' => if is_white_space c then trim_start s' else s
  end.

Fixpoint trim_end (s : string) : string :=
  match s with
  | EmptyString => EmptyString
  | String c s' =>
      match trim_end s' with
      | EmptyString => if is_white_space c then EmptyString else String c EmptyString
      | t => String c t
      end
  end.

(** [s.trim()] *)
Definition trim (s : string) : string := trim_end (trim_start s).

(** [!p || p.trim().length === 0] for a string [p] that may be missing. *)
Definition blank (p : option string) : bool :=
  match p with
  | None => true
  | Some s => (String.length s =? 0)%nat || (String.length (trim s) =? 0)%nat
  end.

(** A string with a code unit that is not white space. *)
Fixpoint has_text (s : string) : bool :=
  match s with
  | EmptyString => false
  | String c s' => negb (is_white_space c) || has_text s'
  end.

(** *** Errors *)

(** An error object: [name], [message] and, for a [JaguarAPIError], the
    [statusCode] ([None] for [null]). *)
Record error : Type := mkError {
  name : string;
  message : string;
  statusCode : option Z
}.

(** [new JaguarAPIError(message, statusCode)] *)
Definition JaguarAPIError (message : string) (statusCode : option Z) : error :=
  {| name := "JaguarAPIError"; message := message; statusCode := statusCode |}.

(** *** Options *)

(** The options object of [generateImage] and of [generateBatch] (without
    a property [prompts]); [None] is a property that is not there. *)
Record GenerationOptions : Type := mkGenerationOptions {
  prompt : option string;
  height : option Q;
  width : option Q;
  guidance_scale : option Q;
  steps : option Q;
  max_seq_length : option Q;
  seed : option Q;
  base_seed : option Q
}.

(** [this.defaults] *)
Record Defaults : Type := mkDefaults {
  d_height : Q;
  d_width : Q;
  d_guidance_scale : Q;
  d_steps : Q;
  d_max_seq_length : Q
}.

(** [options.defaults]: the defaults a caller overrides. *)
Record DefaultsOption : Type := mkDefaultsOption {
  o_height : option Q;
  o_width : option Q;
  o_guidance_scale : option Q;
  o_steps : option Q;
  o_max_seq_length : option Q
}.

Record ClientOptions : Type := mkClientOptions {
  opt_defaults : DefaultsOption;
  opt_timeout : option Q;
  opt_retryAttempts : option Q
}.

Record JaguarFluxAPI : Type := mkJaguarFluxAPI {
  baseUrl : string;
  defaults : Defaults;
  timeout : Q;
  retryAttempts : Q
}.

(** [constructor(baseUrl, options = {})]: the spread of [options.defaults]
    replaces the defaults it names. *)
Definition new (baseUrl : string) (options : ClientOptions) : JaguarFluxAPI :=
  let o := opt_defaults options in
  {| baseUrl := baseUrl;
     defaults :=
       {| d_height := default 1024 (o_height o);
          d_width := default 1024 (o_width o);
          d_guidance_scale := default 3.5 (o_guidance_scale o);
          d_steps := default 4 (o_steps o);
          d_max_seq_length := default 256 (o_max_seq_length o) |};
     timeout := or_else (opt_timeout options) 30000;
     retryAttempts := or_else (opt_retryAttempts options) 1 |}.

(** *** Validation *)

(** [x && (x < lo || x > hi)] for an optional number [x]. *)
Definition outside (x : option Q) (lo hi : Q) : bool :=
  match x with
  | Some v => truthy v && (Qltb v lo || Qltb hi v)
  | None => false
  end.

(** The [errors] array of [validateGenerationOptions]. *)
Definition generation_errors (o : GenerationOptions) : list string :=
  ((if blank (prompt o) then ["Prompt is required and cannot be empty"] else [])
   ++ (if outside (height o) 128 2048
       then ["Height must be between 128 and 2048"] else [])
   ++ (if outside (width o) 128 2048
       then ["Width must be between 128 and 2048"] else [])
   ++ (if outside (guidance_scale o) 1 20
       then ["Guidance scale must be between 1.0 and 20.0"] else [])
   ++ (if outside (steps o) 1 50
       then ["Steps must be between 1 and 50"] else []))%list.

(** What a validation throws when [errors] is not empty. *)
Definition validation_failure (errors : list string) : option error :=
  if (0 <? length errors)%nat
  then Some (JaguarAPIError ("Validation failed: " +:+ String.concat ", " errors) None)
  else None.

(** [validateGenerationOptions(options)]: the error thrown, if any. *)
Definition validateGenerationOptions (o : GenerationOptions) : option error :=
  validation_failure (generation_errors o).

(** [{ prompt: 'dummy', ...options }] *)
Definition with_dummy_prompt (o : GenerationOptions) : GenerationOptions :=
  {| prompt := Some (default "dummy" (prompt o));
     height := height o; width := width o; guidance_scale := guidance_scale o;
     steps := steps o; max_seq_length := max_seq_length o; seed := seed o;
     base_seed := base_seed o |}.

(** The [errors] array of [validateBatchOptions]; [prompts] is [None] when
    it is missing or not an array. *)
Definition prompts_errors (prompts : option (list string)) : list string :=
  match prompts with
  | None | Some [] => ["Prompts array is required and cannot be empty"]
  | Some ps =>
      ((if (10 <? length ps)%nat then ["Batch size cannot exceed 10 prompts"] else [])
       ++ (if (0 <? length (List.filter (fun p => blank (Some p)) ps))%nat
           then ["All prompts must be non-empty strings"] else []))%list
  end.

(** [validateBatchOptions(options)], for the property [prompts] of its
    argument and the other properties [o]: the call of
    [validateGenerationOptions] throws before the errors about the prompts
    are looked at. *)
Definition validateBatchOptions (prompts : option (list string))
    (o : GenerationOptions) : option error :=
  match validateGenerationOptions (with_dummy_prompt o) with
  | Some e => Some e
  | None => validation_failure (prompts_errors prompts)
  end.

(** A number that is [d] or lies between [lo] and [hi]. *)
Definition default_or_within (x d lo hi : Q) : Prop :=
  x = d \/ (lo <= x /\ x <= hi)%Q.

(** *** Requests *)

Section Requests.

(** [Number.prototype.toString], which this development does not describe. *)
Variable toString : Q -> string.

(** The [params] object of [generateImage], in the order of its
    properties; the error when the validation throws. *)
Definition generateImage_params (api : JaguarFluxAPI) (o : GenerationOptions)
  : error + list (string * string) :=
  match validateGenerationOptions o with
  | Some e => inl e
  | None =>
      let d := defaults api in
      inr (([("prompt", default "" (prompt o));
            ("height", toString (or_else (height o) (d_height d)));
            ("width", toString (or_else (width o) (d_width d)));
            ("guidance_scale",
              toString (or_else (guidance_scale o) (d_guidance_scale d)));
            ("steps", toString (or_else (steps o) (d_steps d)));
            ("max_seq_length",
              toString (or_else (max_seq_length o) (d_max_seq_length d)))]
           ++ match seed o with
              | Some n => [("seed", toString n)]
              | None => []
              end)%list)
  end.

End Requests.

(** The [requestBody] of [generateBatch]: [prompts] is the argument of
    the call, [None] when it is not an array. *)
Record BatchBody : Type := mkBatchBody {
  b_prompts : option (list string);
  b_height : Q;
  b_width : Q;
  b_guidance_scale : Q;
  b_steps : Q;
  b_max_seq_length : Q;
  b_base_seed : option Q
}.

(** The property [prompts] of [{ prompts, ...options }]: a property
    [prompts] of [options] replaces the argument. [options_prompts] is
    that property, [None] when [options] has none and [Some None] when its
    value is not an array. *)
Definition spread_prompts (prompts : option (list string))
    (options_prompts : option (option (list string))) : option (list string) :=
  match options_prompts with
  | Some own => own
  | None => prompts
  end.

(** [generateBatch(prompts, options)]: the request body, or the error
    when the validation throws. The validation is given
    [{ prompts, ...options }]; the body holds the argument [prompts]. *)
Definition generateBatch_body (api : JaguarFluxAPI)
    (prompts : option (list string))
    (options_prompts : option (option (list string))) (o : GenerationOptions)
  : error + BatchBody :=
  match validateBatchOptions (spread_prompts prompts options_prompts) o with
  | Some e => inl e
  | None =>
      let d := defaults api in
      inr {| b_prompts := prompts;
             b_height := or_else (height o) (d_height d);
             b_width := or_else (width o) (d_width d);
             b_guidance_scale := or_else (guidance_scale o) (d_guidance_scale d);
             b_steps := or_else (steps o) (d_steps d);
             b_max_seq_length := or_else (max_seq_length o) (d_max_seq_length d);
             b_base_seed := base_seed o |}
  end.

(** *** makeRequest *)

Section MakeRequest.

(** Parsed response bodies, and the message that [errorData.error] gives
    when it is truthy ([None] when it is falsy or cannot be read). *)
Context {J : Type}.
Variable error_of : J -> option string.

(** What [makeRequest] reads of a response: [response.ok],
    [response.status], and [response.json()], which rejects with an error
    or resolves with the parsed body. *)
Record response : Type := mkResponse {
  ok : bool;
  status : Z;
  body : error + J
}.

(** [fetch(url, ...)] resolves with a response or rejects with an error;
    when the timer aborts the request, the error is named [AbortError]. *)
Inductive fetched : Type :=
  | Responds (r : response)
  | Rejects (e : error).

(** [makeRequest] returns a body or throws; [Throws None] throws
    [undefined]. *)
Inductive outcome : Type :=
  | Returns (v : J)
  | Throws (e : option error).

(** The outcome of [makeRequest], the number of calls of [fetch] and the
    waits of [this.delay], in milliseconds and in order. *)
Record report : Type := mkReport {
  result : outcome;
  fetches : nat;
  delays : list Z
}.

(** [`HTTP error! status: ${response.status}`] *)
Definition http_error_message (status : Z) : string :=
  "HTTP error! status: " +:+ pretty status.

Definition is_abort (e : error) : bool := String.eqb (name e) "AbortError".

(** The [for] loop of [makeRequest] with [n] iterations left, in the
    iteration [attempt]; [fetch] gives what the call of [fetch] of each
    iteration does. [attempt] is an integer, [retryAttempts] a number. *)
Fixpoint attempts (retryAttempts : Q) (fetch : Z -> fetched)
    (n : nat) (attempt : Z) (lastError : option error) : report :=
  match n with
  | O => {| result := Throws lastError; fetches := 0; delays := [] |}
  | S n' =>
      (* the next iteration, after the waits [ds] *)
      let continue (lastError' : option error) (ds : list Z) :=
        let r := attempts retryAttempts fetch n' (attempt + 1) lastError' in
        {| result := result r; fetches := S (fetches r);
           delays := (ds ++ delays r)%list |} in
      (* the [catch] block *)
      let caught (e : error) :=
        if is_abort e then
          {| result := Throws (Some (JaguarAPIError "Request timeout" (Some 408%Z)));
             fetches := 1; delays := [] |}
        else if Qltb (inject_Z attempt) retryAttempts
             then continue (Some e) [(1000 * (attempt + 1))%Z]
             else continue (Some e) [] in
      match fetch attempt with
      | Rejects e => caught e
      | Responds r =>
          if ok r then
            match body r with
            | inr v => {| result := Returns v; fetches := 1; delays := [] |}
            | inl e => caught e
            end
          else if (status r =? 503)%Z && Qltb (inject_Z attempt) retryAttempts
               then continue lastError [5000%Z]
               else
                 let errorMessage :=
                   match body r with
                   | inr errorData =>
                       default (http_error_message (status r)) (error_of errorData)
                   | inl _ => http_error_message (status r)
                   end in
                 caught (JaguarAPIError errorMessage (Some (status r)))
      end
  end.

(** The number of iterations of [for (attempt = 0; attempt <=
    retryAttempts; attempt++)]: the integers from 0 that are at most
    [retryAttempts]. *)
Definition iterations (retryAttempts : Q) : nat :=
  Z.to_nat (Qfloor retryAttempts + 1).

(** [makeRequest(url, options)] *)
Definition makeRequest (api : JaguarFluxAPI) (fetch : Z -> fetched) : report :=
  attempts (retryAttempts api) fetch (iterations (retryAttempts api)) 0 None.

(** What one iteration comes to: the body it returns, the timeout it
    throws, or the error it goes on with ([503] is the answer after which
    the loop goes on without an error of its own, when iterations are
    left). *)
Inductive verdict : Type :=
  | Succeeded (v : J)
  | TimedOut
  | Failed (e : error).

Definition failure_of (e : error) : verdict :=
  if is_abort e then TimedOut else Failed e.

Definition verdict_of (f : fetched) : verdict :=
  match f with
  | Rejects e => failure_of e
  | Responds r =>
      if ok r then
        match body r with
        | inr v => Succeeded v
        | inl e => failure_of e
        end
      else
        Failed (JaguarAPIError
                  match body r with
                  | inr errorData =>
                      default (http_error_message (status r)) (error_of errorData)
                  | inl _ => http_error_message (status r)
                  end
                  (Some (status r)))
  end.

Definition is_failure (f : fetched) : Prop :=
  exists e, verdict_of f = Failed e.

(** How [makeRequest] ends on an iteration that returns or times out. *)
Definition decision (v : verdict) : option outcome :=
  match v with
  | Succeeded x => Some (Returns x)
  | TimedOut => Some (Throws (Some (JaguarAPIError "Request timeout" (Some 408%Z))))
  | Failed _ => None
  end.

End MakeRequest.

(** *** The validation functions of [jaguar-api-types.ts] *)

(** [PARAMETER_LIMITS] *)
Record limits : Type := mkLimits { lim_min : Z; lim_max : Z }.

Definition limits_height : limits := {| lim_min := 128; lim_max := 2048 |}.
Definition limits_width : limits := {| lim_min := 128; lim_max := 2048 |}.
Definition limits_guidance_scale : limits := {| lim_min := 1; lim_max := 20 |}.
Definition limits_steps : limits := {| lim_min := 1; lim_max := 50 |}.
Definition limits_max_seq_length : limits := {| lim_min := 1; lim_max := 512 |}.
Definition limits_batch_size : limits := {| lim_min := 1; lim_max := 10 |}.

(** [x && (x < limits.min || x > limits.max)] *)
Definition outside_limits (x : option Q) (l : limits) : bool :=
  outside x (inject_Z (lim_min l)) (inject_Z (lim_max l)).

(** [`${what} must be between ${limits.min} and ${limits.max}`]: the limits
    are integers, printed in decimal. *)
Definition between_message (what : string) (l : limits) : string :=
  what +:+ " must be between " +:+ pretty (lim_min l) +:+ " and "
       +:+ pretty (lim_max l).

(** [validateGenerationOptions(options)] of the TypeScript file: the
    array of messages it returns. *)
Definition ts_validateGenerationOptions (o : GenerationOptions) : list string :=
  ((if blank (prompt o) then ["Prompt is required and cannot be empty"] else [])
   ++ (if outside_limits (height o) limits_height
       then [between_message "Height" limits_height] else [])
   ++ (if outside_limits (width o) limits_width
       then [between_message "Width" limits_width] else [])
   ++ (if outside_limits (guidance_scale o) limits_guidance_scale
       then [between_message "Guidance scale" limits_guidance_scale] else [])
   ++ (if outside_limits (steps o) limits_steps
       then [between_message "Steps" limits_steps] else [])
   ++ (if outside_limits (max_seq_length o) limits_max_seq_length
       then [between_message "Max sequence length" limits_max_seq_length] else []))%list.

(** [validateBatchOptions(options)] of the TypeScript file, for the
    prompts and the other properties of [options]. *)
Definition ts_validateBatchOptions (prompts : option (list string))
    (o : GenerationOptions) : list string :=
  (match prompts with
   | None | Some [] => ["Prompts array is required and cannot be empty"]
   | Some ps =>
       (if (Z.of_nat (length ps) >? lim_max limits_batch_size)%Z
        then ["Batch size cannot exceed " +:+ pretty (lim_max limits_batch_size)
                +:+ " prompts"]
        else [])
       ++ (if (0 <? length (List.filter (fun p => blank (Some p)) ps))%nat
           then ["All prompts must be non-empty strings"] else [])
   end
   ++ List.filter
        (fun e => negb (String.eqb e "Prompt is required and cannot be empty"))
        (ts_validateGenerationOptions (with_dummy_prompt o)))%list.

End API.

(** ** Notions used to state further properties *)

Module Notions.

Section CacheNotions.

Context {V : Type}.

(** Two bindings with the same key and the same timestamp. *)
Definition alike (x y : string * @IC.entry V) : Prop :=
  x.1 = y.1 /\ IC.timestamp x.2 = IC.timestamp y.2.

(** A map with one binding per key and no more entries than a capacity
    that is not negative. *)
Definition within (c : @IC.ImageCache V) : Prop :=
  NoDup (IC.map_keys (IC.cache c)) /\
  Z.of_nat (length (IC.cache c)) <= IC.capacity c /\
  0 <= IC.capacity c.

End CacheNotions.

Section QueueNotions.

Context {T E : Type}.

(** Every request function that was called is awaited or has its promise
    settled. *)
Definition accounted (s : @RQ.state T E) : Prop :=
  forall p, p ∈ RQ.started s -> p ∈ RQ.awaiting s \/ is_Some (RQ.settled s !! p).

(** What is left to do: two for each queued entry, one for each awaited
    request. *)
Definition backlog (s : @RQ.state T E) : nat :=
  2 * length (RQ.queue s) + length (RQ.awaiting s).

End QueueNotions.

(** The value of a hexadecimal digit of [Key.hex_digit]. *)
Definition unhex (c : ascii) : N :=
  let n := N_of_ascii c in
  if (n <? 58)%N then (n - 48)%N else (n - 87)%N.

(** Reading back the code unit at the head of an escaped string: the
    inverse of [Key.escape_char]. *)
Definition unescape_head (s : string) : option (ascii * string) :=
  match s with
  | EmptyString => None
  | String c r =>
      if (N_of_ascii c =? 92)%N then
        match r with
        | EmptyString => None
        | String d r' =>
            let n := N_of_ascii d in
            if (n =? 98)%N then Some (ascii_of_N 8, r')
            else if (n =? 116)%N then Some (ascii_of_N 9, r')
            else if (n =? 110)%N then Some (ascii_of_N 10, r')
            else if (n =? 102)%N then Some (ascii_of_N 12, r')
            else if (n =? 114)%N then Some (ascii_of_N 13, r')
            else if (n =? 117)%N then
              match r' with
              | String _ (String _ (String h (String l r''))) =>
                  Some (ascii_of_N (16 * unhex h + unhex l), r'')
              | _ => None
              end
            else Some (d, r')
        end
      else Some (c, r)
  end.

End Notions.

(** * Numbers compared with integers *)

Module NumFacts.

Import QArith Qround Lqa Num.

Local Open Scope Q_scope.

Lemma Qfloor_unique (x : Q) (n : Z) :
  inject_Z n <= x -> x < inject_Z (n + 1) -> Qfloor x = n.
Proof.
  intros Hle Hlt.
  pose proof (Qfloor_le x) as H1. pose proof (Qlt_floor x) as H2.
  assert (inject_Z n < inject_Z (Qfloor x + 1)) as H3 by (eapply Qle_lt_trans; eauto).
  assert (inject_Z (Qfloor x) < inject_Z (n + 1)) as H4 by (eapply Qle_lt_trans; eauto).
  rewrite <- Zlt_Qlt in H3, H4. lia.
Qed.

Lemma Qceiling_opp (x : Q) : Qceiling x = (- Qfloor (- x))%Z.
Proof. done. Qed.

Lemma Qle_inject_ceiling (x : Q) (z : Z) : x <= inject_Z z <-> (Qceiling x <= z)%Z.
Proof.
  split.
  - intros H. apply Qceiling_resp_le in H. by rewrite Qceiling_Z in H.
  - intros H. eapply Qle_trans; [apply Qle_ceiling|]. by rewrite <- Zle_Qle.
Qed.

Lemma Qle_inject_floor (z : Z) (x : Q) : inject_Z z <= x <-> (z <= Qfloor x)%Z.
Proof.
  split.
  - intros H. apply Qfloor_resp_le in H. by rewrite Qfloor_Z in H.
  - intros H. eapply Qle_trans; [|apply Qfloor_le]. by rewrite <- Zle_Qle.
Qed.

Lemma Qlt_inject_ceiling (z : Z) (x : Q) : inject_Z z < x <-> (z < Qceiling x)%Z.
Proof.
  rewrite Z.lt_nge, <- Qle_inject_ceiling. split; [apply Qlt_not_le|apply Qnot_le_lt].
Qed.

Lemma Qlt_inject_floor (x : Q) (z : Z) : x < inject_Z z <-> (Qfloor x < z)%Z.
Proof.
  rewrite Z.lt_nge, <- Qle_inject_floor. split; [apply Qlt_not_le|apply Qnot_le_lt].
Qed.

Lemma Qle_bool_ceiling (x : Q) (z : Z) : Qle_bool x (inject_Z z) = (Qceiling x <=? z)%Z.
Proof.
  apply eq_true_iff_eq. by rewrite Qle_bool_iff, Z.leb_le, Qle_inject_ceiling.
Qed.

Lemma Qle_bool_floor (z : Z) (x : Q) : Qle_bool (inject_Z z) x = (z <=? Qfloor x)%Z.
Proof.
  apply eq_true_iff_eq. by rewrite Qle_bool_iff, Z.leb_le, Qle_inject_floor.
Qed.

Lemma Qltb_ceiling (z : Z) (x : Q) : Qltb (inject_Z z) x = (z <? Qceiling x)%Z.
Proof. unfold Qltb. rewrite Qle_bool_ceiling. apply eq_sym, Z.ltb_antisym. Qed.

Lemma Qltb_floor (x : Q) (z : Z) : Qltb x (inject_Z z) = (Qfloor x <? z)%Z.
Proof. unfold Qltb. rewrite Qle_bool_floor. apply eq_sym, Z.ltb_antisym. Qed.

Lemma floor_ceiling (x : Q) : (Qfloor x <= Qceiling x <= Qfloor x + 1)%Z.
Proof.
  split.
  - rewrite Zle_Qle. apply Qle_floor_ceiling.
  - apply (proj1 (Qle_inject_ceiling _ _)). apply Qlt_le_weak, Qlt_floor.
Qed.

Lemma integer_floor_ceiling (x : Q) (n : Z) :
  x == inject_Z n -> Qfloor x = n /\ Qceiling x = n.
Proof.
  intros H. by rewrite (Qfloor_comp _ _ H), (Qceiling_comp _ _ H), Qfloor_Z, Qceiling_Z.
Qed.

Lemma integer_iff (x : Q) : integer x <-> Qfloor x = Qceiling x.
Proof.
  split.
  - intros [n Hn]. by destruct (integer_floor_ceiling x n Hn) as [-> ->].
  - intros H. exists (Qfloor x). apply Qle_antisym; [|apply Qfloor_le].
    rewrite H. apply Qle_ceiling.
Qed.

Lemma Qfloor_inject_minus (z : Z) (x : Q) :
  Qfloor (inject_Z z - x) = (z - Qceiling x)%Z.
Proof.
  apply Qfloor_unique.
  - pose proof (Qle_ceiling x) as H.
    unfold Z.sub. rewrite inject_Z_plus, inject_Z_opp. lra.
  - pose proof (Qceiling_lt x) as H.
    replace (z - Qceiling x + 1)%Z with (z + - (Qceiling x - 1))%Z by lia.
    rewrite inject_Z_plus, inject_Z_opp. lra.
Qed.

Lemma to_integer_nonneg (x : Q) : 0 <= x -> to_integer x = Qfloor x.
Proof. intros H. unfold to_integer. by rewrite (proj2 (Qle_bool_iff 0 x) H). Qed.

(** [slice(0, end)] for a positive [end]. *)
Lemma slice_to_positive {A : Type} (x : Q) (l : list A) :
  0 <= x -> slice_to x l = take (Z.to_nat (Qfloor x)) l.
Proof.
  intros H. unfold slice_to. rewrite to_integer_nonneg by done.
  assert (0 <= Qfloor x)%Z as H0.
  { by apply (proj1 (Qle_inject_floor 0 x)). }
  by destruct (Z.ltb_spec (Qfloor x) 0); [lia|].
Qed.

Lemma or_else_cases (x : option Q) (d : Q) :
  (or_else x d = d /\ (x = None \/ exists v, x = Some v /\ v == 0)) \/
  (x = Some (or_else x d) /\ ~ or_else x d == 0).
Proof.
  unfold or_else, truthy. destruct x as [v|]; [|left; auto].
  destruct (Qeq_bool v 0) eqn:Hv; simpl.
  - left. split; [done|]. right. exists v. split; [done|]. by apply Qeq_bool_eq.
  - right. split; [done|]. by apply Qeq_bool_neq.
Qed.

End NumFacts.

(** * Properties of the image cache *)

Module ICFacts.

Import QArith Qround Lqa Num NumFacts IC.

Local Open Scope Z_scope.

#[local] Arguments Qceiling : simpl never.
#[local] Arguments Qfloor : simpl never.

Section MapFacts.

Context {V : Type}.

Implicit Types (m : list (string * @entry V)) (k : string) (e : @entry V).

Lemma map_get_None k m : map_get k m = None <-> k ∉ map_keys m.
Proof.
  unfold map_keys. induction m as [|[k' e'] m IH]; simpl.
  - split; [intros _; apply not_elem_of_nil | done].
  - rewrite not_elem_of_cons. destruct (String.eqb_spec k' k) as [->|Hne].
    + split; [done | intros [? _]; done].
    + rewrite IH. split; [by auto | by intros [_ ?]].
Qed.

Lemma map_get_Some_elem k e m : map_get k m = Some e -> (k, e) ∈ m.
Proof.
  induction m as [|[k' e'] m IH]; simpl; [done|].
  destruct (String.eqb_spec k' k) as [->|Hne].
  - intros [= ->]. left.
  - intros. right. auto.
Qed.

Lemma map_get_elem k e m :
  NoDup (map_keys m) -> (k, e) ∈ m -> map_get k m = Some e.
Proof.
  unfold map_keys. induction m as [|[k' e'] m IH]; simpl.
  - intros _ H. by apply elem_of_nil in H.
  - rewrite NoDup_cons. intros [Hk Hnd] [Heq|Hin]%elem_of_cons.
    + simplify_eq. by rewrite String.eqb_refl.
    + destruct (String.eqb_spec k' k) as [->|Hne]; [|by auto].
      destruct Hk. apply list_elem_of_fmap. by exists (k, e).
Qed.

Lemma map_get_set_eq k e m : map_get k (map_set k e m) = Some e.
Proof.
  induction m as [|[k' e'] m IH]; simpl.
  - by rewrite String.eqb_refl.
  - destruct (String.eqb k' k) eqn:Hk; simpl; by rewrite Hk.
Qed.

Lemma map_get_set_ne k k' e m :
  k <> k' -> map_get k' (map_set k e m) = map_get k' m.
Proof.
  intros Hne. induction m as [|[k0 e0] m IH]; simpl.
  - by destruct (String.eqb_spec k k').
  - destruct (String.eqb_spec k0 k) as [->|Hk]; simpl.
    + by destruct (String.eqb_spec k k').
    + by rewrite IH.
Qed.

Lemma map_set_present k e m :
  k ∈ map_keys m ->
  map_keys (map_set k e m) = map_keys m /\ length (map_set k e m) = length m.
Proof.
  unfold map_keys. induction m as [|[k' e'] m IH]; simpl.
  - intros H. by apply elem_of_nil in H.
  - intros Hin. destruct (String.eqb_spec k' k) as [->|Hk]; simpl; [done|].
    apply elem_of_cons in Hin as [?|Hin]; [congruence|].
    destruct (IH Hin) as [H1 H2]. split; [|by rewrite H2].
    change ((k' :: (map_set k e m).*1) = k' :: m.*1). by rewrite H1.
Qed.

Lemma map_set_fresh k e m : k ∉ map_keys m -> map_set k e m = m ++ [(k, e)].
Proof.
  unfold map_keys. induction m as [|[k' e'] m IH]; simpl; [done|].
  rewrite not_elem_of_cons. intros [Hne Hnin].
  destruct (String.eqb_spec k' k) as [->|Hk]; [done|].
  by rewrite IH.
Qed.

Lemma map_set_NoDup k e m : NoDup (map_keys m) -> NoDup (map_keys (map_set k e m)).
Proof.
  intros Hnd. destruct (decide (k ∈ map_keys m)) as [Hin|Hnin].
  - by destruct (map_set_present k e m Hin) as [-> _].
  - rewrite (map_set_fresh _ _ _ Hnin). unfold map_keys in *.
    rewrite fmap_app. simpl. apply NoDup_app. split_and!; [done| |apply NoDup_singleton].
    intros x Hx ->%list_elem_of_singleton. done.
Qed.

(** With one binding per key, [delete] is a filter on the keys. *)
Lemma map_delete_filter k m :
  NoDup (map_keys m) -> map_delete k m = filter (fun kv => kv.1 ≠ k) m.
Proof.
  unfold map_keys. induction m as [|[k' e'] m IH]; simpl; [done|].
  rewrite NoDup_cons. intros [Hk Hnd].
  destruct (String.eqb_spec k' k) as [->|Hne].
  - rewrite filter_cons_False by (simpl; auto).
    rewrite <- IH by done. clear IH.
    induction m as [|[k1 e1] m IH]; simpl; [done|].
    simpl in Hk. apply not_elem_of_cons in Hk as [Hk1 Hk].
    apply NoDup_cons in Hnd as [_ Hnd].
    destruct (String.eqb_spec k1 k) as [->|_]; [done|].
    by rewrite <- IH.
  - rewrite filter_cons_True by done. by rewrite IH.
Qed.

Lemma map_delete_NoDup k m : NoDup (map_keys m) -> NoDup (map_keys (map_delete k m)).
Proof.
  intros Hnd. rewrite map_delete_filter by done.
  eapply sublist_NoDup; [exact Hnd|]. unfold map_keys. apply fmap_sublist, sublist_filter.
Qed.

Lemma map_get_delete_eq k m : NoDup (map_keys m) -> map_get k (map_delete k m) = None.
Proof.
  intros Hnd. apply map_get_None. rewrite map_delete_filter by done.
  unfold map_keys. intros ([k' e'] & -> & [Hk _]%list_elem_of_filter)%list_elem_of_fmap.
  done.
Qed.

Lemma map_get_delete_ne k k' m : k <> k' -> map_get k' (map_delete k m) = map_get k' m.
Proof.
  intros Hne. induction m as [|[k0 e0] m IH]; simpl; [done|].
  destruct (String.eqb_spec k0 k) as [->|Hk]; simpl.
  - by destruct (String.eqb_spec k k').
  - by rewrite IH.
Qed.

Lemma delete_all_filter (R m : list (string * @entry V)) :
  NoDup (map_keys m) ->
  delete_all R m = filter (fun kv => kv.1 ∉ map_keys R) m.
Proof.
  unfold delete_all. revert m. induction R as [|r R IH]; intros m Hnd; simpl.
  - symmetry. induction m as [|x m IHm]; [done|].
    rewrite filter_cons_True by apply not_elem_of_nil.
    f_equal. apply IHm. unfold map_keys in *. simpl in Hnd.
    by apply NoDup_cons in Hnd as [_ ?].
  - rewrite IH by by apply map_delete_NoDup.
    rewrite map_delete_filter by done. rewrite list_filter_filter.
    apply list_filter_iff. intros x. rewrite not_elem_of_cons. tauto.
Qed.

(** *** The sort *)


Lemma insert_by_timestamp_perm x m : insert_by_timestamp x m ≡ₚ x :: m.
Proof.
  induction m as [|y m IH]; simpl; [done|].
  destruct (timestamp x.2 <=? timestamp y.2); [done|].
  rewrite IH. apply Permutation_swap.
Qed.

Lemma sort_by_timestamp_perm m : sort_by_timestamp m ≡ₚ m.
Proof.
  induction m as [|x m IH]; simpl; [done|].
  by rewrite insert_by_timestamp_perm, IH.
Qed.

Lemma insert_by_timestamp_sorted x m :
  StronglySorted older m -> StronglySorted older (insert_by_timestamp x m).
Proof.
  induction m as [|y m IH]; simpl; intros Hs.
  - repeat constructor.
  - apply StronglySorted_cons in Hs as [Hy Hs].
    destruct (Z.leb_spec (timestamp x.2) (timestamp y.2)) as [Hle|Hgt].
    + apply StronglySorted_cons. split; [|by apply StronglySorted_cons].
      constructor; [done|]. eapply Forall_impl; [exact Hy|].
      unfold older. intros z ?. lia.
    + apply StronglySorted_cons. split; [|by auto].
      rewrite insert_by_timestamp_perm. constructor; [|done].
      unfold older. lia.
Qed.

Lemma sort_by_timestamp_sorted m : StronglySorted older (sort_by_timestamp m).
Proof.
  induction m as [|x m IH]; simpl; [constructor|].
  by apply insert_by_timestamp_sorted.
Qed.

(** The sort is stable: the entries of any one timestamp keep the order
    they have in the array. Sorted, a permutation and stable determine the
    result of the sort. *)
Lemma insert_by_timestamp_stable t x m :
  filter (fun kv => timestamp kv.2 = t) (insert_by_timestamp x m)
  = filter (fun kv => timestamp kv.2 = t) (x :: m).
Proof.
  induction m as [|y m IH]; simpl; [done|].
  destruct (Z.leb_spec (timestamp x.2) (timestamp y.2)) as [Hle|Hgt]; [done|].
  rewrite (filter_cons _ y), IH, !(filter_cons _ x), !(filter_cons _ y).
  repeat case_decide; try done. lia.
Qed.

Lemma sort_by_timestamp_stable t m :
  filter (fun kv => timestamp kv.2 = t) (sort_by_timestamp m)
  = filter (fun kv => timestamp kv.2 = t) m.
Proof.
  induction m as [|x m IH]; simpl; [done|].
  by rewrite insert_by_timestamp_stable, !(filter_cons _ x), IH.
Qed.

Lemma sort_by_timestamp_length m : length (sort_by_timestamp m) = length m.
Proof. apply Permutation_length, sort_by_timestamp_perm. Qed.

(** Stability at the end of the array: an element that is last and not
    older than any other stays last. *)
Lemma insert_by_timestamp_snoc y x m :
  older y x -> insert_by_timestamp y (m ++ [x]) = insert_by_timestamp y m ++ [x].
Proof.
  unfold older. intros Hyx. induction m as [|z m IH]; simpl.
  - by rewrite (proj2 (Z.leb_le _ _) Hyx).
  - destruct (timestamp y.2 <=? timestamp z.2); [done|]. by rewrite IH.
Qed.

Lemma sort_by_timestamp_snoc x m :
  Forall (fun y => older y x) m ->
  sort_by_timestamp (m ++ [x]) = sort_by_timestamp m ++ [x].
Proof.
  induction 1 as [|y m Hy Hm IH]; simpl; [done|].
  by rewrite IH, insert_by_timestamp_snoc.
Qed.

(** A sorted array ends with the element that is strictly newer than all
    the others. *)
Lemma sorted_newest_last (s : list (string * @entry V)) x :
  StronglySorted older s -> NoDup s -> x ∈ s ->
  (forall y, y ∈ s -> y <> x -> timestamp y.2 < timestamp x.2) ->
  last s = Some x.
Proof.
  intros Hs Hnd Hx Hnew.
  apply list_elem_of_split in Hx as (s1 & s2 & ->).
  destruct s2 as [|y s2]; [apply last_snoc|].
  exfalso.
  apply StronglySorted_app_1_r, StronglySorted_cons in Hs as [Hy _].
  apply Forall_cons in Hy as [Hy _].
  apply NoDup_app in Hnd as (_ & _ & Hnd). apply NoDup_cons in Hnd as [Hxy _].
  assert (y <> x) as Hne by (intros ->; apply Hxy; left).
  assert (y ∈ s1 ++ x :: y :: s2) as Hin.
  { apply elem_of_app. right. right. left. }
  specialize (Hnew y Hin Hne). unfold older in Hy. lia.
Qed.

Lemma Forall_kept {A} (P Q : A -> Prop) `{!forall x, Decision (Q x)} (l : list A) :
  Forall P l -> Forall P (filter Q l).
Proof.
  rewrite !Forall_forall. intros HP x [_ Hx]%list_elem_of_filter. auto.
Qed.

Lemma filter_all {A} (P : A -> Prop) `{!forall x, Decision (P x)} (l : list A) :
  Forall P l -> filter P l = l.
Proof.
  induction 1 as [|x l Hx Hl IH]; [done|].
  by rewrite filter_cons_True, IH.
Qed.

Lemma filter_none {A} (P : A -> Prop) `{!forall x, Decision (P x)} (l : list A) :
  Forall (fun x => ~ P x) l -> filter P l = [].
Proof.
  induction 1 as [|x l Hx Hl IH]; [done|].
  by rewrite filter_cons_False, IH.
Qed.

Lemma filter_drop_prefix (s1 s2 : list (string * @entry V)) :
  NoDup (map_keys (s1 ++ s2)) ->
  filter (fun kv => kv.1 ∉ map_keys s1) (s1 ++ s2) = s2.
Proof.
  unfold map_keys. rewrite fmap_app, NoDup_app. intros (_ & Hdisj & _).
  rewrite filter_app, filter_none, filter_all; [done| |].
  - apply Forall_forall. intros x Hx Hin.
    apply (Hdisj _ Hin), list_elem_of_fmap. by exists x.
  - apply Forall_forall. intros x Hx Hnin.
    apply Hnin, list_elem_of_fmap. by exists x.
Qed.

(** The entries that survive the removal of the [n] oldest. *)
Lemma kept_after_removal n m :
  NoDup (map_keys m) ->
  filter (fun kv => kv.1 ∉ map_keys (take n (sort_by_timestamp m))) m
    ≡ₚ drop n (sort_by_timestamp m).
Proof.
  intros Hnd.
  pose proof (sort_by_timestamp_perm m) as Hperm.
  pose proof (filter_drop_prefix (take n (sort_by_timestamp m))
                (drop n (sort_by_timestamp m))) as Hkept.
  rewrite take_drop in Hkept.
  rewrite <- Hkept.
  - apply filter_Permutation. by symmetry.
  - unfold map_keys in *. by rewrite Hperm.
Qed.

(** [cleanup] in terms of the capacity: between [maxSize] and the
    capacity the [slice] is empty and nothing is removed. *)
Lemma cleanup_capacity (c : @ImageCache V) :
  cleanup c =
    if Z.of_nat (length (cache c)) <=? capacity c then c
    else with_cache c
           (delete_all
              (take (Z.to_nat (Z.of_nat (length (cache c)) - capacity c))
                    (sort_by_timestamp (cache c)))
              (cache c)).
Proof.
  unfold cleanup, capacity. rewrite Qle_bool_floor.
  pose proof (floor_ceiling (maxSize c)) as Hfc.
  destruct (Z.leb_spec (Z.of_nat (length (cache c))) (Qfloor (maxSize c))) as [Hle|Hgt].
  { by destruct (Z.leb_spec (Z.of_nat (length (cache c))) (Qceiling (maxSize c)));
      [|lia]. }
  assert (0 <= inject_Z (Z.of_nat (length (cache c))) - maxSize c)%Q as Hpos.
  { apply Qlt_inject_floor in Hgt. lra. }
  rewrite (slice_to_positive _ _ Hpos), Qfloor_inject_minus.
  destruct (Z.leb_spec (Z.of_nat (length (cache c))) (Qceiling (maxSize c)))
    as [Hin|Hover]; [|done].
  replace (Z.to_nat (Z.of_nat (length (cache c)) - Qceiling (maxSize c))) with 0%nat
    by lia.
  by destruct c.
Qed.

Lemma cleanup_within (c : @ImageCache V) :
  Z.of_nat (length (cache c)) <= capacity c -> cleanup c = c.
Proof. rewrite cleanup_capacity. intros H. by rewrite (proj2 (Z.leb_le _ _) H). Qed.

Lemma cleanup_over (c : @ImageCache V) :
  NoDup (map_keys (cache c)) ->
  capacity c < Z.of_nat (length (cache c)) ->
  cache (cleanup c) =
    filter (fun kv => kv.1 ∉ map_keys
              (take (Z.to_nat (Z.of_nat (length (cache c)) - capacity c))
                    (sort_by_timestamp (cache c))))
           (cache c).
Proof.
  rewrite cleanup_capacity. intros Hnd H. rewrite (proj2 (Z.leb_gt _ _) H). simpl.
  by apply delete_all_filter.
Qed.

Lemma cleanup_config (c : @ImageCache V) :
  maxSize (cleanup c) = maxSize c /\ ttl (cleanup c) = ttl c.
Proof. rewrite cleanup_capacity. by destruct (_ <=? _). Qed.

Lemma capacity_config (c c' : @ImageCache V) :
  maxSize c' = maxSize c -> capacity c' = capacity c.
Proof. unfold capacity. by intros ->. Qed.

Lemma cleanup_NoDup (c : @ImageCache V) :
  NoDup (map_keys (cache c)) -> NoDup (map_keys (cache (cleanup c))).
Proof.
  intros Hnd. destruct (Z.le_gt_cases (Z.of_nat (length (cache c))) (capacity c)).
  - by rewrite cleanup_within.
  - rewrite cleanup_over by (done || lia).
    eapply sublist_NoDup; [exact Hnd|]. unfold map_keys. apply fmap_sublist, sublist_filter.
Qed.

Lemma cleanup_bounded (c : @ImageCache V) :
  NoDup (map_keys (cache c)) -> 0 <= capacity c ->
  Z.of_nat (length (cache (cleanup c))) <= capacity c /\
  (capacity c < Z.of_nat (length (cache c)) ->
   Z.of_nat (length (cache (cleanup c))) = capacity c).
Proof.
  intros Hnd Hmax.
  destruct (Z.le_gt_cases (Z.of_nat (length (cache c))) (capacity c)) as [Hle|Hgt].
  - rewrite cleanup_within by done. split; [done|lia].
  - rewrite cleanup_over by (done || lia).
    rewrite kept_after_removal by done.
    rewrite length_drop, sort_by_timestamp_length. lia.
Qed.

End MapFacts.

Section CacheFacts.

Context {V : Type}.

Implicit Types (c : @ImageCache V) (k : string) (v : V).

(** What the test [Date.now() - entry.timestamp > this.ttl] of [get] says
    of the lifetime. *)
Lemma expired_lifetime c (age : Z) :
  Qltb (ttl c) (inject_Z age) = (lifetime c <? age).
Proof. apply Qltb_floor. Qed.

Lemma live_lifetime c (age : Z) : (inject_Z age <= ttl c)%Q <-> age <= lifetime c.
Proof. apply Qle_inject_floor. Qed.

Lemma dead_lifetime c (age : Z) : (ttl c < inject_Z age)%Q <-> lifetime c < age.
Proof. apply Qlt_inject_floor. Qed.

Lemma get_lifetime c k now :
  get k now c =
    match map_get k (cache c) with
    | None => (None, c)
    | Some e =>
        if lifetime c <? now - timestamp e then
          (None, with_cache c (map_delete k (cache c)))
        else
          (Some (value e),
           with_cache c
             (map_set k
                {| value := value e; timestamp := timestamp e;
                   accessCount := accessCount e + 1 |}
                (cache c)))
    end.
Proof. unfold get. destruct (map_get k (cache c)); [|done]. by rewrite expired_lifetime. Qed.

(** The capacity of a maximum size that is an integer is that integer. *)
Lemma integer_capacity c : integer (maxSize c) -> (maxSize c == inject_Z (capacity c))%Q.
Proof.
  intros [n Hn]. unfold capacity.
  by rewrite (proj2 (integer_floor_ceiling _ _ Hn)).
Qed.


Lemma positive_capacity c : (0 < maxSize c)%Q <-> 1 <= capacity c.
Proof.
  change 0%Q with (inject_Z 0). unfold capacity. rewrite Qlt_inject_ceiling. lia.
Qed.

(** What [set] leaves in the cache: the map after the insertion when it
    fits, and otherwise the map without the first entries of the sort. *)
Lemma set_cache c k v now :
  NoDup (map_keys (cache c)) ->
  let m := map_set k {| value := v; timestamp := now; accessCount := 1 |} (cache c) in
  let n := Z.to_nat (Z.of_nat (length m) - capacity c) in
  (Z.of_nat (length m) <= capacity c -> cache (set k v now c) = m) /\
  (capacity c < Z.of_nat (length m) ->
   cache (set k v now c)
   = filter (fun kv => kv.1 ∉ map_keys (take n (sort_by_timestamp m))) m).
Proof.
  intros Hnd m n.
  assert (NoDup (map_keys m)) as Hm by by apply map_set_NoDup.
  split; intros Hlen; unfold set; fold m.
  - by rewrite cleanup_within.
  - by rewrite cleanup_over.
Qed.


Lemma set_config c k v now :
  maxSize (set k v now c) = maxSize c /\ ttl (set k v now c) = ttl c.
Proof. unfold set. by destruct (cleanup_config (with_cache c (map_set k {| value := v; timestamp := now; accessCount := 1 |} (cache c)))) as [-> ->]. Qed.

Lemma get_config c k now :
  maxSize (get k now c).2 = maxSize c /\ ttl (get k now c).2 = ttl c.
Proof.
  rewrite get_lifetime. destruct (map_get k (cache c)); [|done].
  by destruct (_ <? _).
Qed.

Lemma do_calls_config c os :
  maxSize (do_calls c os) = maxSize c /\ ttl (do_calls c os) = ttl c.
Proof.
  unfold do_calls. revert c. induction os as [|o os IH]; intros c; simpl; [done|].
  destruct (IH (do_call c o)) as [-> ->].
  destruct o; simpl; [apply set_config|apply get_config].
Qed.

(** C3 (amended): [get(k)] at time [now] returns the stored value exactly
    when the map has an entry for [k] and [now] minus its timestamp is at
    most the field [ttl]; the entry then has its access counter
    incremented. Otherwise [get(k)] returns [null]; an entry that is there
    but expired is removed, and a cache without entry for [k] is left as it
    is. No other key is affected. With [ttl] 1000, an entry with timestamp
    T is returned at T + 999 and not at T + 1001. The field [ttl] of a
    cache is the option [ttl] of its constructor, or 3600000 when the
    option is left out or is 0. *)
Theorem get_fresh_or_absent c k now :
  NoDup (map_keys (cache c)) ->
  let r := (get k now c).1 in
  let c' := (get k now c).2 in
  (forall v, r = Some v <->
     exists e, map_get k (cache c) = Some e /\
               (inject_Z (now - timestamp e) <= ttl c)%Q /\ value e = v) /\
  (forall e, map_get k (cache c) = Some e ->
     (inject_Z (now - timestamp e) <= ttl c)%Q ->
     map_get k (cache c') =
       Some {| value := value e; timestamp := timestamp e;
               accessCount := accessCount e + 1 |}) /\
  (forall e, map_get k (cache c) = Some e ->
     (ttl c < inject_Z (now - timestamp e))%Q ->
     r = None /\ map_get k (cache c') = None) /\
  (map_get k (cache c) = None -> r = None /\ c' = c) /\
  (forall k', k' <> k -> map_get k' (cache c') = map_get k' (cache c)) /\
  ((ttl c == 1000)%Q -> forall e, map_get k (cache c) = Some e ->
     (get k (timestamp e + 999) c).1 = Some (value e) /\
     (get k (timestamp e + 1001) c).1 = None) /\
  (forall options os, c = do_calls (new options) os ->
     ttl c = or_else (opt_ttl options) 3600000).
Proof.
  intros Hnd r c'. unfold r, c'. rewrite !get_lifetime.
  assert (forall options os, c = do_calls (new options) os ->
            ttl c = or_else (opt_ttl options) 3600000) as Hfield.
  { intros options os ->. by destruct (do_calls_config (new (V:=V) options) os) as [_ ->]. }
  assert ((ttl c == 1000)%Q -> lifetime c = 1000) as H1000.
  { intros H. apply (integer_floor_ceiling (ttl c) 1000 H). }
  destruct (map_get k (cache c)) as [e|] eqn:Hget.
  - destruct (Z.ltb_spec (lifetime c) (now - timestamp e)) as [Hexp|Hlive]; simpl.
    + split_and!.
      * intros v. split; [done|]. intros (e' & [= <-] & ?%live_lifetime & _). lia.
      * intros e' [= <-] ?%live_lifetime. lia.
      * intros e' _ _. split; [done|]. by apply map_get_delete_eq.
      * done.
      * intros k' Hne. by apply map_get_delete_ne.
      * intros Httl%H1000 e' [= <-]. rewrite !get_lifetime, Hget.
        destruct (Z.ltb_spec (lifetime c) (timestamp e + 999 - timestamp e)); [lia|].
        destruct (Z.ltb_spec (lifetime c) (timestamp e + 1001 - timestamp e)); [done|lia].
      * done.
    + split_and!.
      * intros v. split; [intros [= <-]; exists e; by rewrite live_lifetime|].
        by intros (e' & [= <-] & _ & <-).
      * intros e' [= <-] _. apply map_get_set_eq.
      * intros e' [= <-] ?%dead_lifetime. lia.
      * done.
      * intros k' Hne. by apply map_get_set_ne.
      * intros Httl%H1000 e' [= <-]. rewrite !get_lifetime, Hget.
        destruct (Z.ltb_spec (lifetime c) (timestamp e + 999 - timestamp e)); [lia|].
        destruct (Z.ltb_spec (lifetime c) (timestamp e + 1001 - timestamp e)); [done|lia].
      * done.
  - simpl. split_and!; try done.
    intros v. split; [done|]. by intros (e' & ? & _).
Qed.

Lemma new_consistent (options : CacheOptions) t :
  nonnegative (opt_maxSize options) ->
  consistent_at t (new (V:=V) options) /\ 1 <= capacity (new (V:=V) options).
Proof.
  intros Hmax.
  assert (1 <= capacity (new (V:=V) options)) as Hcap.
  { apply positive_capacity. unfold new. simpl.
    destruct (or_else_cases (opt_maxSize options) 100) as [[-> _]|[Hv Hne]]; [done|].
    rewrite Hv in Hmax. simpl in Hmax. lra. }
  split; [|done]. unfold consistent_at. simpl.
  split_and!; [constructor|lia|constructor].
Qed.

Lemma Forall_map_set (P : string * @entry V -> Prop) k e m :
  Forall P m -> P (k, e) -> Forall P (map_set k e m).
Proof.
  intros Hm He. induction Hm as [|[k' e'] m Hx Hm IH]; simpl.
  - by constructor.
  - destruct (String.eqb_spec k' k) as [->|_]; by constructor.
Qed.

Lemma set_consistent c k v now t :
  consistent_at t c -> t <= now -> 0 <= capacity c ->
  consistent_at now (set k v now c).
Proof.
  intros (Hnd & Hlen & Hts) Ht Hmax.
  destruct (set_cache c k v now Hnd) as (Hsmall & Hover).
  destruct (set_config c k v now) as [Hcfg%capacity_config _].
  set (m := map_set k {| value := v; timestamp := now; accessCount := 1 |} (cache c)) in *.
  assert (NoDup (map_keys m)) as Hm by by apply map_set_NoDup.
  assert (Z.of_nat (length (cache (set k v now c))) <= capacity c) as Hle.
  { unfold set. fold m. by apply (cleanup_bounded (with_cache c m)). }
  assert (Forall (fun kv : string * entry => timestamp kv.2 <= now) m) as Hmts.
  { apply Forall_map_set; [|simpl; lia].
    eapply Forall_impl; [exact Hts|]. simpl. intros; lia. }
  split_and!.
  - unfold set. by apply cleanup_NoDup.
  - by rewrite Hcfg.
  - destruct (Z.le_gt_cases (Z.of_nat (length m)) (capacity c)) as [H|H].
    + by rewrite Hsmall.
    + rewrite (Hover H). by apply Forall_kept.
Qed.

Lemma get_consistent c k now t :
  consistent_at t c -> t <= now -> consistent_at now (get k now c).2.
Proof.
  intros (Hnd & Hlen & Hts) Ht.
  assert (Forall (fun kv : string * entry => timestamp kv.2 <= now) (cache c)) as Hts'.
  { eapply Forall_impl; [exact Hts|]. simpl. intros; lia. }
  rewrite get_lifetime. destruct (map_get k (cache c)) as [e|] eqn:Hget; [|done].
  destruct (_ <? _); simpl.
  - split_and!; simpl.
    + by apply map_delete_NoDup.
    + rewrite map_delete_filter by done.
      pose proof (length_filter (fun kv : string * entry => kv.1 ≠ k) (cache c)).
      change (capacity (with_cache c _)) with (capacity c). lia.
    + rewrite map_delete_filter by done. by apply Forall_kept.
  - assert (k ∈ map_keys (cache c)) as Hin.
    { destruct (decide (k ∈ map_keys (cache c))) as [|Hn]; [done|].
      apply map_get_None in Hn. congruence. }
    split_and!; simpl.
    + by apply map_set_NoDup.
    + destruct (map_set_present k {| value := value e; timestamp := timestamp e;
                 accessCount := accessCount e + 1 |} (cache c) Hin) as [_ ->]. done.
    + apply Forall_map_set; [done|]. simpl.
      apply map_get_Some_elem in Hget.
      rewrite Forall_forall in Hts'. exact (Hts' _ Hget).
Qed.

Lemma do_call_consistent c o t :
  consistent_at t c -> t <= call_time o -> 0 <= capacity c ->
  consistent_at (call_time o) (do_call c o) /\ capacity (do_call c o) = capacity c.
Proof.
  intros Hc Ht Hmax. destruct o as [k v now|k now]; simpl in *.
  - split; [by eapply set_consistent|apply capacity_config, set_config].
  - split; [by eapply get_consistent|apply capacity_config, get_config].
Qed.

Lemma do_calls_consistent os : forall c t now,
  consistent_at t c -> 0 <= capacity c ->
  t <= match os with [] => now | o :: _ => call_time o end ->
  chronological os now = true ->
  consistent_at now (do_calls c os).
Proof.
  induction os as [|o os IH]; intros c t now Hc Hmax Ht Hchron.
  - destruct Hc as (Hnd & Hlen & Hts). split_and!; [done..|].
    eapply Forall_impl; [exact Hts|]. simpl. intros; lia.
  - simpl in Hchron. apply andb_prop in Hchron as [Hnext Hchron].
    apply Z.leb_le in Hnext.
    destruct (do_call_consistent c o t Hc Ht Hmax) as [Hc' Hmax'].
    apply (IH (do_call c o) (call_time o) now); [done|lia|done|done].
Qed.

(** The entry of a key that has just been set is in the cache. *)
Lemma set_stores c k v now t :
  consistent_at t c -> t <= now -> 1 <= capacity c ->
  map_get k (cache (set k v now c)) =
    Some {| value := v; timestamp := now; accessCount := 1 |}.
Proof.
  intros (Hnd & Hlen & Hts) Ht Hmax.
  set (e := {| value := v; timestamp := now; accessCount := 1 |}).
  unfold set. fold e.
  set (m := map_set k e (cache c)).
  assert (NoDup (map_keys m)) as Hm by by apply map_set_NoDup.
  change (capacity c) with (capacity (with_cache c m)) in Hmax, Hlen.
  destruct (Z.le_gt_cases (Z.of_nat (length m)) (capacity (with_cache c m)))
    as [Hsmall|Hover].
  { rewrite cleanup_within by done. apply map_get_set_eq. }
  destruct (decide (k ∈ map_keys (cache c))) as [Hin|Hnin].
  { destruct (map_set_present k e (cache c) Hin) as [_ Hl]. fold m in Hl.
    simpl in Hover. lia. }
  assert (m = cache c ++ [(k, e)]) as Hsnoc by by apply map_set_fresh.
  assert (length m = S (length (cache c))) as Hl.
  { rewrite Hsnoc, length_app. simpl. lia. }
  rewrite cleanup_over by done. cbn [cache with_cache].
  replace (Z.to_nat (Z.of_nat (length m) - capacity (with_cache c m))) with 1%nat
    by (simpl in Hover; lia).
  apply map_get_elem.
  { eapply sublist_NoDup; [exact Hm|]. unfold map_keys.
    apply fmap_sublist, sublist_filter. }
  apply list_elem_of_filter. split.
  - simpl. rewrite Hsnoc, sort_by_timestamp_snoc.
    + destruct (sort_by_timestamp (cache c)) as [|y s] eqn:Hs.
      { apply (f_equal length) in Hs. rewrite sort_by_timestamp_length in Hs.
        simpl in Hs. simpl in Hover. lia. }
      simpl. intros ->%list_elem_of_singleton.
      apply Hnin. unfold map_keys. rewrite <- (sort_by_timestamp_perm (cache c)), Hs.
      left.
    + eapply Forall_impl; [exact Hts|]. unfold older. simpl. intros; lia.
  - rewrite Hsnoc. apply elem_of_app. right. left.
Qed.



(** C9 (amended): in a cache that holds no more than [maxSize] entries and
    has an entry for [k], [set(k, v)] replaces the entry for [k] by
    [{v, now, 1}] and keeps the keys of the map and the other entries as
    they are; at a time [now] later than the timestamps of all other
    entries it makes [k] the last key of the eviction order, and a key
    that is new and set no earlier than [now] comes after [k] in that
    order, so at the next overflow every entry that was there is a
    candidate before [k]. *)
Theorem reset_is_newest c k v now e0 :
  NoDup (map_keys (cache c)) ->
  (inject_Z (Z.of_nat (length (cache c))) <= maxSize c)%Q ->
  map_get k (cache c) = Some e0 ->
  let c' := set k v now c in
  map_get k (cache c') = Some {| value := v; timestamp := now; accessCount := 1 |} /\
  map_keys (cache c') = map_keys (cache c) /\
  (forall k', k' <> k -> map_get k' (cache c') = map_get k' (cache c)) /\
  ((forall k' e', k' <> k -> map_get k' (cache c) = Some e' -> timestamp e' < now) ->
   last (eviction_order c') = Some k /\
   (forall j w t, j ∉ map_keys (cache c') -> now <= t ->
      eviction_order
        (with_cache c'
           (map_set j {| value := w; timestamp := t; accessCount := 1 |} (cache c')))
      = eviction_order c' ++ [j])).
Proof.
  intros Hnd Hlen Hget c'.
  assert (Z.of_nat (length (cache c)) <= capacity c) as Hcap.
  { apply Qle_inject_floor in Hlen. pose proof (floor_ceiling (maxSize c)).
    unfold capacity. lia. }
  set (e := {| value := v; timestamp := now; accessCount := 1 |}).
  set (m := map_set k e (cache c)).
  assert (k ∈ map_keys (cache c)) as Hin.
  { destruct (decide (k ∈ map_keys (cache c))) as [|Hn]; [done|].
    apply map_get_None in Hn. congruence. }
  destruct (map_set_present k e (cache c) Hin) as [Hkeys Hl]. fold m in Hkeys, Hl.
  assert (cache c' = m) as Hc'.
  { unfold c', set. fold e m. rewrite cleanup_within; [done|].
    change (capacity (with_cache c m)) with (capacity c). simpl. lia. }
  assert (NoDup (map_keys m)) as Hm by by rewrite Hkeys.
  assert ((k, e) ∈ m) as Hke by apply map_get_Some_elem, map_get_set_eq.
  rewrite Hc'. split_and!.
  - apply map_get_set_eq.
  - done.
  - intros k' Hne. by apply map_get_set_ne.
  - intros Hothers.
    assert (forall y, y ∈ m -> y = (k, e) \/ timestamp y.2 < now) as Hcases.
    { intros [k' e'] Hy. simpl.
      pose proof (map_get_elem _ _ _ Hm Hy) as Hy'.
      destruct (decide (k' = k)) as [->|Hk].
      - unfold m in Hy'. rewrite map_get_set_eq in Hy'. left. congruence.
      - unfold m in Hy'. rewrite map_get_set_ne in Hy' by done. right.
        by eapply Hothers. }
    assert (forall y, y ∈ m -> y <> (k, e) -> timestamp y.2 < now) as Hstrict.
    { intros y Hy Hne. by destruct (Hcases y Hy). }
    split.
    + unfold eviction_order, map_keys. rewrite Hc', fmap_last.
      rewrite (sorted_newest_last (sort_by_timestamp m) (k, e)); [done| | | |].
      * apply sort_by_timestamp_sorted.
      * rewrite sort_by_timestamp_perm. by apply NoDup_fmap_1 in Hm.
      * by rewrite sort_by_timestamp_perm.
      * intros y Hy. rewrite sort_by_timestamp_perm in Hy. by apply Hstrict.
    + intros j w t Hj Ht. unfold eviction_order. simpl. rewrite ?Hc'.
      rewrite map_set_fresh by done. unfold map_keys.
      rewrite sort_by_timestamp_snoc, fmap_app; [done|].
      apply Forall_forall. intros y Hy. unfold older. simpl.
      destruct (Hcases y Hy) as [->|Hlt]; simpl; lia.
Qed.

(** C6 (amended): an ImageCache constructed with maximum size 0 is the
    cache constructed without maximum size: [maxSize] is the default 100.
    After any calls during which the clock did not go back, [set(k, v)]
    leaves the entry [{v, now, 1}] for [k] in the cache, which then holds
    between 1 and 100 entries. *)
Theorem zero_max_size_is_default (ttl_option : option Q) (os : list call) k v now :
  chronological os now = true ->
  let c0 := new (V:=V) {| opt_maxSize := Some 0%Q; opt_ttl := ttl_option |} in
  let c := set k v now (do_calls c0 os) in
  c0 = new {| opt_maxSize := None; opt_ttl := ttl_option |} /\
  maxSize c = 100%Q /\
  map_get k (cache c) = Some {| value := v; timestamp := now; accessCount := 1 |} /\
  (1 <= length (cache c) <= 100)%nat.
Proof.
  intros Hchron c0 c.
  assert (nonnegative (opt_maxSize {| opt_maxSize := Some 0%Q; opt_ttl := ttl_option |}))
    as Hnn by (simpl; lra).
  destruct (new_consistent _ match os with [] => now | o :: _ => call_time o end Hnn)
    as [Hnew Hone]. fold c0 in Hnew, Hone.
  destruct (do_calls_config c0 os) as [Hm _].
  assert (consistent_at now (do_calls c0 os)) as Hc.
  { eapply do_calls_consistent; [exact Hnew|lia|lia|done]. }
  assert (maxSize c = 100%Q) as Hmax.
  { unfold c. destruct (set_config (do_calls c0 os) k v now) as [-> _]. by rewrite Hm. }
  assert (capacity (do_calls c0 os) = 100) as Hcap.
  { unfold capacity. by rewrite Hm. }
  assert (map_get k (cache c) = Some {| value := v; timestamp := now; accessCount := 1 |})
    as Hget.
  { apply (set_stores _ k v now now Hc); lia. }
  split_and!; [done|done|done| |].
  - apply map_get_Some_elem in Hget. destruct (cache c); [by apply elem_of_nil in Hget|].
    simpl. lia.
  - assert (consistent_at now c) as (_ & Hlen & _).
    { unfold c. eapply set_consistent; [exact Hc|lia|lia]. }
    assert (capacity c = 100) as Hcap'.
    { unfold capacity. by rewrite Hmax. }
    lia.
Qed.

(** C7 (amended): an ImageCache constructed with time-to-live 0 is the
    cache constructed without time-to-live: [ttl] is the default 3600000.
    After any calls, [get(k)] at time [t] of a key whose entry has
    timestamp T returns the value when [t - T <= 3600000] and [null]
    otherwise. *)
Theorem zero_ttl_is_default (size_option : option Q) (os : list call) k e t :
  let c0 := new (V:=V) {| opt_maxSize := size_option; opt_ttl := Some 0%Q |} in
  let c := do_calls c0 os in
  map_get k (cache c) = Some e ->
  c0 = new {| opt_maxSize := size_option; opt_ttl := None |} /\
  ttl c = 3600000%Q /\
  (get k t c).1 = if t - timestamp e <=? 3600000 then Some (value e) else None.
Proof.
  intros c0 c Hget.
  assert (ttl c = 3600000%Q) as Httl.
  { unfold c. by destruct (do_calls_config c0 os) as [_ ->]. }
  assert (lifetime c = 3600000) as Hlife.
  { unfold lifetime. by rewrite Httl. }
  split_and!; [done..|].
  rewrite get_lifetime, Hget, Hlife.
  destruct (Z.ltb_spec 3600000 (t - timestamp e)), (Z.leb_spec (t - timestamp e) 3600000);
    simpl; (done || lia).
Qed.

End CacheFacts.

(** ** Runs of the cache on concrete calls *)

Local Open Scope string_scope.

(** The spec's example: with [maxSize] 2, setting A, B and C in this order
    leaves B and C, whatever the times when the clock does not go back. *)
Lemma set_three_keeps_two (ta tb tc : Z) :
  ta <= tb -> tb <= tc ->
  map_keys (cache (do_calls (new {| opt_maxSize := Some 2%Q; opt_ttl := None |})
       [CallSet "A" "a" ta; CallSet "B" "b" tb; CallSet "C" "c" tc]))
  = ["B"; "C"].
Proof.
  intros Hab Hbc. unfold do_calls. cbn [foldl do_call].
  unfold set at 1. rewrite cleanup_capacity.
  unfold set at 1. rewrite cleanup_capacity.
  unfold set at 1. rewrite cleanup_capacity.
  simpl.
  destruct (Z.leb_spec tb tc); [|lia]. simpl.
  destruct (Z.leb_spec ta tb); [|lia]. simpl. done.
Qed.

Ltac distinct_keys :=
  apply (bool_decide_unpack _); vm_compute; exact I.



Lemma get_fresh_or_absent_witness :
  let c := set "k" "v" 5 (new {| opt_maxSize := None; opt_ttl := Some 1000%Q |}) in
  NoDup (map_keys (cache c)) /\
  (get "k" 1004 c).1 = Some "v" /\ (get "k" 1006 c).1 = None.
Proof.
  intros c.
  assert (NoDup (map_keys (cache c))) as Hnd by distinct_keys.
  split; [done|].
  destruct (get_fresh_or_absent c "k" 0 Hnd) as (_ & _ & _ & _ & _ & Httl & _).
  exact (Httl (Qeq_refl 1000) _ eq_refl).
Defined.

(** C3 as stated fails for a cache configured with a time-to-live of 0:
    the field [ttl] is then 3600000, and an entry inserted at time 0 is
    returned at time 5, when its age exceeds the configured 0. *)
Lemma get_returns_beyond_configured_zero_ttl :
  let options := {| opt_maxSize := None; opt_ttl := Some 0%Q |} in
  let c := set "k" "v" 0 (new options) in
  map_get "k" (cache c) = Some {| value := "v"; timestamp := 0; accessCount := 1 |} /\
  opt_ttl options = Some 0%Q /\ (0 < inject_Z (5 - 0))%Q /\
  (get "k" 5 c).1 = Some "v" /\ ttl c = 3600000%Q.
Proof. done. Qed.

(** C6 as stated fails: a cache constructed with maximum size 0 stores the
    entry and returns it. *)
Lemma zero_max_size_stores :
  let c := set "k" "v" 0 (new {| opt_maxSize := Some 0%Q; opt_ttl := None |}) in
  (get "k" 0 c).1 = Some "v" /\ length (cache c) = 1%nat.
Proof. done. Qed.

Lemma zero_max_size_is_default_witness :
  let os := [CallSet "A" "a" 0; CallGet "A" 3] in
  chronological os 7 = true /\
  map_get "B"
    (cache (set "B" "b" 7
              (do_calls (new {| opt_maxSize := Some 0%Q; opt_ttl := None |}) os)))
  = Some {| value := "b"; timestamp := 7; accessCount := 1 |}.
Proof.
  intros os.
  assert (chronological os 7 = true) as Hchron by reflexivity.
  split; [done|].
  exact (proj1 (proj2 (proj2 (zero_max_size_is_default None os "B" "b" 7 Hchron)))).
Defined.

(** C7 as stated fails: with a time-to-live of 0 an entry inserted at time
    0 is returned at time 1. *)
Lemma zero_ttl_still_present :
  (get "k" 1 (set "k" "v" 0 (new {| opt_maxSize := None; opt_ttl := Some 0%Q |}))).1
  = Some "v".
Proof. done. Qed.

Lemma zero_ttl_is_default_witness :
  let c := do_calls (new {| opt_maxSize := None; opt_ttl := Some 0%Q |})
             [CallSet "k" "v" 0] in
  let e := {| value := "v"; timestamp := 0; accessCount := 1 |} in
  map_get "k" (cache c) = Some e /\
  (get "k" 3600000 c).1 = Some "v" /\ (get "k" 3600001 c).1 = None.
Proof.
  intros c e.
  assert (map_get "k" (cache c) = Some e) as Hget by reflexivity.
  split_and!; [done| |].
  - exact (proj2 (proj2 (zero_ttl_is_default None [CallSet "k" "v" 0] "k" e 3600000 Hget))).
  - exact (proj2 (proj2 (zero_ttl_is_default None [CallSet "k" "v" 0] "k" e 3600001 Hget))).
Defined.

(** C9 as stated fails: A is set again in the millisecond in which B was
    set; A keeps its place before B in the map, is the first candidate for
    removal, and is removed when C arrives, while B stays. *)
Lemma reset_in_same_millisecond_evicted_first :
  let c := do_calls (new {| opt_maxSize := Some 2%Q; opt_ttl := None |})
             [CallSet "A" "a" 0; CallSet "B" "b" 5] in
  let c' := set "A" "a2" 5 c in
  map_get "A" (cache c') = Some {| value := "a2"; timestamp := 5; accessCount := 1 |} /\
  eviction_order c' = ["A"; "B"] /\
  map_keys (cache (set "C" "c" 6 c')) = ["B"; "C"].
Proof. done. Qed.

Lemma reset_is_newest_witness :
  let c := do_calls (new {| opt_maxSize := Some 2%Q; opt_ttl := None |})
             [CallSet "A" "a" 0; CallSet "B" "b" 5] in
  let e0 := {| value := "a"; timestamp := 0; accessCount := 1 |} in
  NoDup (map_keys (cache c)) /\
  (inject_Z (Z.of_nat (length (cache c))) <= maxSize c)%Q /\
  map_get "A" (cache c) = Some e0 /\
  (forall k' e', k' <> "A" -> map_get k' (cache c) = Some e' -> timestamp e' < 6) /\
  last (eviction_order (set "A" "a2" 6 c)) = Some "A".
Proof.
  intros c e0.
  assert (NoDup (map_keys (cache c))) as Hnd by distinct_keys.
  assert (inject_Z (Z.of_nat (length (cache c))) <= maxSize c)%Q as Hlen
    by (vm_compute; discriminate).
  assert (map_get "A" (cache c) = Some e0) as Hget by reflexivity.
  assert (forall k' e', k' <> "A" -> map_get k' (cache c) = Some e' -> timestamp e' < 6)
    as Hothers.
  { intros k' e' Hne. change (cache c) with
      [("A", e0); ("B", {| value := "b"; timestamp := 5; accessCount := 1 |})].
    cbn [map_get]. destruct (String.eqb_spec "A" k') as [<-|_]; [done|].
    destruct (String.eqb_spec "B" k') as [_|_]; [|done].
    intros [= <-]. simpl. lia. }
  split_and!; [done..|].
  exact (proj1 (proj2 (proj2 (proj2
           (reset_is_newest c "A" "a2" 6 e0 Hnd Hlen Hget))) Hothers)).
Defined.



End ICFacts.

(** * Properties of the cache keys *)

Module KeyFacts.

Import Key.

(** Objects with the same pairs whose keys come in the same order are the
    same list of properties. *)
Lemma same_pairs_same_order (p1 p2 : list (string * json)) :
  NoDup p1.*1 -> same_pairs p1 p2 -> p1.*1 = p2.*1 -> p1 = p2.
Proof.
  revert p2. induction p1 as [|[k x] p1 IH]; intros [|[k' x'] p2] Hnd Hsame Hkeys;
    try done.
  rewrite !fmap_cons in Hkeys. simpl in Hkeys. injection Hkeys as <- Hkeys.
  rewrite fmap_cons in Hnd. apply NoDup_cons in Hnd as [Hk Hnd]. simpl in Hk.
  pose proof (Hsame k) as Hx. simpl in Hx. rewrite String.eqb_refl in Hx.
  injection Hx as <-. f_equal. apply IH; [done| |done].
  unfold same_pairs in *. intros j. specialize (Hsame j). simpl in Hsame.
  destruct (String.eqb_spec k j) as [Heq|_]; [subst j|done].
  assert (forall p : list (string * json), k ∉ p.*1 -> prop_get k p = None) as Hnone.
  { induction p as [|[k0 x0] p IHp]; [done|].
    rewrite fmap_cons, not_elem_of_cons. simpl. intros [Hne Hp].
    destruct (String.eqb_spec k0 k); [congruence|]. by apply IHp. }
  rewrite !Hnone; [done| |done]. by rewrite <- Hkeys.
Qed.

Lemma stringify_None v : stringify v = None <-> is_undefined v = true.
Proof. by destruct v. Qed.

(** [JSON.stringify] leaves out the properties whose value is
    [undefined]. *)
Lemma omap_defined {B} (g : string * json -> option B) (props : list (string * json)) :
  (forall kv, is_undefined kv.2 = true -> g kv = None) ->
  omap g props = omap g (defined props).
Proof.
  intros Hg. unfold defined. induction props as [|[k x] props IH]; [done|].
  rewrite filter_cons.
  destruct (decide (is_undefined (k, x).2 = false)) as [Hx|Hx].
  - simpl. destruct (g (k, x)); [f_equal|]; exact IH.
  - apply not_false_is_true in Hx. simpl. rewrite (Hg _ Hx). exact IH.
Qed.

Lemma stringify_defined (props : list (string * json)) :
  stringify (JObject props) = stringify (JObject (defined props)).
Proof.
  cbn [stringify]. rewrite <- omap_defined; [done|].
  intros kv Hkv%stringify_None. by rewrite Hkv.
Qed.

Lemma prop_get_elem_of (props : list (string * json)) k x :
  NoDup props.*1 -> (k, x) ∈ props -> prop_get k props = Some x.
Proof.
  induction props as [|[k' x'] props IH]; [by intros _ ?%elem_of_nil|].
  rewrite fmap_cons, NoDup_cons, elem_of_cons. simpl. intros [Hk Hnd] [[= -> ->]|Hin].
  - by rewrite String.eqb_refl.
  - destruct (String.eqb_spec k' k) as [->|_]; [|by apply IH].
    destruct Hk. apply list_elem_of_fmap. by exists (k, x).
Qed.

(** The defined properties of an object are its defined names with what
    the object reads at them. *)
Lemma defined_reads (props : list (string * json)) :
  NoDup props.*1 ->
  defined props = (fun k => (k, read k props)) <$> defined_names props.
Proof.
  intros Hnd. unfold defined_names. rewrite <- list_fmap_compose.
  transitivity (id <$> defined props); [by rewrite list_fmap_id|].
  apply Forall_fmap_ext, Forall_forall. intros [k x] Hin. simpl.
  apply list_elem_of_filter in Hin as [_ Hin].
  unfold read. by rewrite (prop_get_elem_of props k x).
Qed.

(** Objects with the same pairs read the same at every name, and with
    their keys in the same order their defined names come in the same
    order. *)
Lemma same_pairs_reads (p1 p2 : list (string * json)) :
  NoDup p1.*1 -> same_pairs p1 p2 -> p1.*1 = p2.*1 ->
  NoDup p2.*1 /\ (forall k, read k p1 = read k p2) /\
  defined_names p1 = defined_names p2.
Proof.
  intros Hnd Hsame Hkeys. by rewrite <- (same_pairs_same_order p1 p2).
Qed.

Lemma omap_names {B} (g : string * json -> option B) (value : string -> json)
    (names : list string) :
  omap g ((fun k => (k, value k)) <$> names) = omap (fun k => g (k, value k)) names.
Proof.
  induction names as [|k names IH]; [done|].
  rewrite fmap_cons. simpl. destruct (g (k, value k)); [f_equal|]; exact IH.
Qed.

(** C8 (amended): two parameter objects that read the same at every
    key (a key that an object does not have reads [undefined]) and whose
    keys with a value other than [undefined] come in the same order have
    the same key, a string: the pairs of these keys and their values, in
    that order, between braces. The two objects need not have the same
    properties: [JSON.stringify] leaves out those whose value is
    [undefined]. *)
Theorem createKey_same_order (p1 p2 : list (string * json)) :
  NoDup p1.*1 -> NoDup p2.*1 ->
  (forall k, read k p1 = read k p2) ->
  defined_names p1 = defined_names p2 ->
  exists key, createKey (JObject p1) = Some key /\
              createKey (JObject p2) = Some key /\
              key = ("{" +:+ String.concat ","
                       (omap (fun k => (fun s => quote k +:+ ":" +:+ s)
                                         <$> stringify (read k p1))
                             (defined_names p1)) +:+ "}")%string.
Proof.
  intros Hnd1 Hnd2 Hread Hnames.
  assert (defined p1 = defined p2) as Heq.
  { rewrite (defined_reads p1 Hnd1), (defined_reads p2 Hnd2), Hnames.
    apply Forall_fmap_ext, Forall_forall. intros k _. by rewrite Hread. }
  unfold createKey.
  rewrite (stringify_defined p1), (stringify_defined p2), <- Heq.
  set (names := defined_names p1).
  rewrite (defined_reads p1 Hnd1). fold names. cbn [stringify].
  rewrite (omap_names
             (fun kv => (fun s => quote kv.1 +:+ ":" +:+ s)%string <$> stringify kv.2)
             (fun k => read k p1)).
  by eexists.
Qed.

Local Open Scope string_scope.

Lemma createKey_same_order_witness :
  let p1 := [("prompt", JString "a"); ("seed", JUndefined); ("width", JNumber 512)] in
  let p2 := [("prompt", JString "a"); ("width", JNumber 512)] in
  exists key, createKey (JObject p1) = Some key /\
              createKey (JObject p2) = Some key /\
              key = "{" +:+ quote "prompt" +:+ ":" +:+ quote "a" +:+ ","
                        +:+ quote "width" +:+ ":512}".
Proof.
  intros p1 p2. apply (createKey_same_order p1 p2).
  - apply (bool_decide_unpack _). vm_compute. exact I.
  - apply (bool_decide_unpack _). vm_compute. exact I.
  - intros k. unfold read, p1, p2. cbn [prop_get].
    destruct (String.eqb_spec "prompt" k) as [_|_]; [done|].
    destruct (String.eqb_spec "seed" k) as [<-|_]; [done|].
    done.
  - reflexivity.
Defined.

(** C8 as stated fails: the same two pairs in the other order give another
    key. *)
Lemma createKey_depends_on_key_order :
  let p1 := [("prompt", JString "a"); ("width", JNumber 512)] in
  let p2 := [("width", JNumber 512); ("prompt", JString "a")] in
  same_pairs p1 p2 /\
  createKey (JObject p1) =
    Some ("{" +:+ quote "prompt" +:+ ":" +:+ quote "a" +:+ ","
              +:+ quote "width" +:+ ":512}") /\
  createKey (JObject p2) =
    Some ("{" +:+ quote "width" +:+ ":512," +:+ quote "prompt" +:+ ":"
              +:+ quote "a" +:+ "}") /\
  createKey (JObject p1) <> createKey (JObject p2).
Proof.
  split_and!; [|done|done|done].
  intros k. cbn [prop_get].
  destruct (String.eqb_spec "prompt" k) as [<-|_]; [done|].
  by destruct (String.eqb_spec "width" k).
Qed.

End KeyFacts.

(** * Properties of the request queue *)

Module RQFacts.

Import QArith Qround Lqa Num NumFacts RQ.

Local Open Scope Z_scope.

#[local] Arguments Qceiling : simpl never.

Section QueueFacts.

Context {T E : Type}.

Implicit Types (s : @state T E) (q : list (@queued E)) (p : nat).

Lemma new_invariant (mc : option Q) : invariant (new (T:=T) (E:=E) mc).
Proof.
  split; simpl.
  - done.
  - split; [constructor|]. intros p Hp. by apply elem_of_nil in Hp.
  - done.
  - intros p _. apply lookup_empty.
Qed.

Lemma new_bounded (mc : option Q) :
  0 <= limit (new (T:=T) (E:=E) mc) -> bounded (new (T:=T) (E:=E) mc).
Proof. intros H. split; [done|]. by repeat constructor. Qed.

(** The head of the queue has a promise that is neither started nor
    elsewhere in the queue. *)
Lemma head_is_fresh s e rest :
  invariant s -> queue s = e :: rest ->
  (promise e ∉ started s) /\ (promise e ∉ (promise <$> rest)) /\
  (promise e ∉ awaiting s) /\ settled s !! promise e = None.
Proof.
  intros [Hord [_ Hsub] _ Hpend] Hq. rewrite Hq, fmap_cons in Hord.
  assert (NoDup (started s ++ promise e :: (promise <$> rest))) as Hnd.
  { rewrite Hord. apply NoDup_seq. }
  apply NoDup_app in Hnd as (_ & Hdisj & [Hrest _]%NoDup_cons).
  assert (promise e ∉ started s) as Hns.
  { intros Hin. apply (Hdisj _ Hin). left. }
  split_and!; [done|done|by intros ?%Hsub|].
  apply Hpend. by right.
Qed.

Lemma settle_fresh p o s :
  settled s !! p = None -> settled (settle p o s) = <[p := o]> (settled s).
Proof. intros H. unfold settle. simpl. by rewrite H. Qed.

Lemma process_queue_cons e rest s :
  process_queue (e :: rest) s =
    if running s >=? limit s then s
    else match requestFunction e with
         | Throws error =>
             process_queue rest
               (release (settle (promise e) (Rejected error) (dispatch e rest s)))
         | Awaits =>
             set_awaiting (awaiting (dispatch e rest s) ++ [promise e])
               (dispatch e rest s)
         end.
Proof.
  cbn [process_queue]. unfold limit. by rewrite Qle_bool_ceiling, Z.geb_leb.
Qed.

Lemma limit_config s s' : maxConcurrent s' = maxConcurrent s -> limit s' = limit s.
Proof. unfold limit. by intros ->. Qed.

(** The state after a request function has thrown. *)
Lemma thrown_invariant s e rest error :
  invariant s -> queue s = e :: rest ->
  invariant (release (settle (promise e) (Rejected error) (dispatch e rest s))).
Proof.
  intros Hinv Hq.
  destruct (head_is_fresh s e rest Hinv Hq) as (Hns & Hnr & Hna & Hnone).
  destruct Hinv as [Hord [Hnd Hsub] Hrun Hpend]. rewrite Hq, fmap_cons in Hord.
  split; simpl.
  - by rewrite <- app_assoc.
  - split; [done|]. intros p Hp. apply elem_of_app. left. by apply Hsub.
  - lia.
  - rewrite Hnone. intros p Hp.
    rewrite lookup_insert_ne.
    + apply Hpend. destruct Hp as [Hp|Hp]; [by left|]. right.
      intros Hin. apply Hp, elem_of_app. by left.
    + intros <-. destruct Hp as [Hp|Hp]; [done|].
      apply Hp, elem_of_app. right. left.
Qed.

(** The state in which [process] waits for its request. *)
Lemma awaiting_invariant s e rest :
  invariant s -> queue s = e :: rest ->
  invariant (set_awaiting (awaiting (dispatch e rest s) ++ [promise e])
               (dispatch e rest s)).
Proof.
  intros Hinv Hq.
  destruct (head_is_fresh s e rest Hinv Hq) as (Hns & Hnr & Hna & Hnone).
  destruct Hinv as [Hord [Hnd Hsub] Hrun Hpend]. rewrite Hq, fmap_cons in Hord.
  split; simpl.
  - by rewrite <- app_assoc.
  - split.
    + apply NoDup_app. split_and!; [done| |apply NoDup_singleton].
      intros p Hp ->%list_elem_of_singleton. done.
    + intros p [Hp| ->%list_elem_of_singleton]%elem_of_app; apply elem_of_app.
      * left. by apply Hsub.
      * right. left.
  - rewrite length_app. simpl. lia.
  - intros p [[Hp| ->%list_elem_of_singleton]%elem_of_app|Hp].
    + apply Hpend. by left.
    + done.
    + apply Hpend. right. intros Hin. apply Hp, elem_of_app. by left.
Qed.

Lemma process_queue_invariant q : forall s,
  queue s = q -> invariant s -> invariant (process_queue q s).
Proof.
  induction q as [|e rest IH]; intros s Hq Hinv; [done|].
  rewrite process_queue_cons.
  destruct (running s >=? limit s); [done|].
  destruct (requestFunction e) as [error|].
  - apply IH; [done|]. by apply thrown_invariant.
  - by apply awaiting_invariant.
Qed.

Lemma process_queue_config q : forall s,
  maxConcurrent (process_queue q s) = maxConcurrent s /\
  added (process_queue q s) = added s.
Proof.
  induction q as [|e rest IH]; intros s; [done|].
  rewrite process_queue_cons.
  destruct (running s >=? limit s); [done|].
  destruct (requestFunction e) as [error|]; [|done].
  by destruct (IH (release (settle (promise e) (Rejected error) (dispatch e rest s))))
    as [-> ->].
Qed.

Lemma process_queue_bounded q : forall s,
  bounded s -> bounded (process_queue q s).
Proof.
  induction q as [|e rest IH]; intros s Hb; [done|].
  rewrite process_queue_cons.
  destruct (Z.geb_spec (running s) (limit s)) as [|Hfree]; [done|].
  destruct Hb as [Hrun Hall]. unfold bounded, limit in *.
  destruct (requestFunction e) as [error|].
  - apply IH. split; simpl; [lia|].
    repeat (constructor; [lia|]). done.
  - split; simpl; [lia|]. constructor; [lia|done].
Qed.

(** [process] settles no promise but those of queued request functions
    that throw, each with the error of its own request function. *)
Lemma process_queue_settled q : forall s,
  queue s = q -> invariant s ->
  forall p,
    settled (process_queue q s) !! p = settled s !! p \/
    exists error,
      {| requestFunction := Throws error; promise := p |} ∈ q /\
      settled (process_queue q s) !! p = Some (Rejected error).
Proof.
  induction q as [|e rest IH]; intros s Hq Hinv p; [by left|].
  rewrite process_queue_cons.
  destruct (running s >=? limit s); [by left|].
  destruct (head_is_fresh s e rest Hinv Hq) as (_ & _ & _ & Hnone).
  destruct (requestFunction e) as [error|] eqn:Hf; [|by left].
  pose proof (thrown_invariant s e rest error Hinv Hq) as Hinv'.
  destruct (IH (release (settle (promise e) (Rejected error) (dispatch e rest s)))
              eq_refl Hinv' p) as [Hsame|(error' & Hin & Hrej)].
  - assert (settled (release (settle (promise e) (Rejected error) (dispatch e rest s)))
            = <[promise e := Rejected error]> (settled s)) as Hset.
    { simpl. by rewrite Hnone. }
    rewrite Hsame, Hset.
    destruct (decide (p = promise e)) as [->|Hne].
    + right. exists error. rewrite lookup_insert_eq.
      split; [|done]. destruct e as [f pe]. simpl in *. subst f. left.
    + left. by rewrite lookup_insert_ne.
  - right. exists error'. split; [by right|done].
Qed.

Lemma process_queue_counter q : forall s,
  exists l, counter (process_queue q s) = l ++ counter s.
Proof.
  induction q as [|e rest IH]; intros s; [by exists []|].
  rewrite process_queue_cons.
  destruct (running s >=? limit s); [by exists []|].
  destruct (requestFunction e) as [error|].
  - destruct (IH (release (settle (promise e) (Rejected error) (dispatch e rest s))))
      as [l ->]. simpl.
    exists (l ++ [running s + 1 - 1; running s + 1]). by rewrite <- app_assoc.
  - simpl. by exists [running s + 1].
Qed.

(** [process] calls request functions after those already called, and
    calls the head of the queue when a slot is free. *)
Lemma process_queue_started q : forall s,
  started s `prefix_of` started (process_queue q s) /\
  (forall e rest, q = e :: rest -> running s < limit s ->
     promise e ∈ started (process_queue q s)).
Proof.
  induction q as [|e rest IH]; intros s.
  { split; [done|]. intros ?? [=]. }
  rewrite process_queue_cons.
  destruct (Z.geb_spec (running s) (limit s)) as [Hfull|Hfree].
  { split; [done|]. intros ?? _ ?. lia. }
  assert (started s `prefix_of` started (dispatch e rest s)) as Hpre.
  { simpl. by apply prefix_app_r. }
  assert (promise e ∈ started (dispatch e rest s)) as Hin.
  { simpl. apply elem_of_app. right. left. }
  destruct (requestFunction e) as [error|].
  - destruct (IH (release (settle (promise e) (Rejected error) (dispatch e rest s))))
      as [Hpre' _].
    split.
    + etransitivity; [exact Hpre|exact Hpre'].
    + intros e' rest' [= <- <-] _.
      destruct Hpre' as [l ->]. apply elem_of_app. by left.
  - split; [done|]. by intros e' rest' [= <- <-] _.
Qed.

Lemma process_invariant s : invariant s -> invariant (process s).
Proof. by apply process_queue_invariant. Qed.

Lemma add_invariant f s : invariant s -> invariant (add f s).2.
Proof.
  intros [Hord Haw Hrun Hpend]. apply process_invariant. split; cbn -[seq fmap].
  - by rewrite fmap_app, app_assoc, Hord, seq_S.
  - done.
  - done.
  - done.
Qed.

Lemma length_filter_ne (l : list nat) p :
  NoDup l -> p ∈ l -> S (length (filter (fun p' => p' ≠ p) l)) = length l.
Proof.
  induction 1 as [|x l Hx Hnd IH]; intros Hp; [by apply elem_of_nil in Hp|].
  destruct (decide (x = p)) as [->|Hne].
  - rewrite filter_cons_False by (intros H; by apply H). simpl. f_equal.
    clear IH Hp. induction l as [|y l IHl]; [done|].
    apply not_elem_of_cons in Hx as [Hy Hx]. apply NoDup_cons in Hnd as [_ Hnd].
    rewrite filter_cons_True by done. simpl. f_equal. by apply IHl.
  - rewrite filter_cons_True by done. simpl. f_equal. apply IH.
    apply elem_of_cons in Hp as [?|?]; [congruence|done].
Qed.

(** The state in which [process] is called again after its [await]. *)
Lemma resumed_invariant p o s :
  invariant s -> p ∈ awaiting s ->
  invariant
    (release (settle p o (set_awaiting (filter (fun p' => p' ≠ p) (awaiting s)) s))).
Proof.
  intros [Hord [Hnd Hsub] Hrun Hpend] Hp.
  assert (settled s !! p = None) as Hnone by (apply Hpend; by left).
  split; simpl.
  - done.
  - split; [by apply NoDup_filter|].
    intros p' [_ Hp']%list_elem_of_filter. by apply Hsub.
  - pose proof (length_filter_ne (awaiting s) p Hnd Hp). lia.
  - rewrite Hnone. intros p' Hp'.
    rewrite lookup_insert_ne.
    + apply Hpend. destruct Hp' as [[_ ?]%list_elem_of_filter|?]; [by left|by right].
    + intros <-. destruct Hp' as [[Hne _]%list_elem_of_filter|Hns]; [done|].
      by apply Hns, Hsub.
Qed.

Lemma resume_Some p r s s' :
  resume p r s = Some s' ->
  p ∈ awaiting s /\
  s' = process (release (settle p match r with
                                  | Succeeds x => Resolved x
                                  | Fails error => Rejected error
                                  end
                          (set_awaiting (filter (fun p' => p' ≠ p) (awaiting s)) s))).
Proof.
  unfold resume. case_bool_decide; [|done]. by intros [= <-].
Qed.

Lemma step_invariant s a s' : invariant s -> step s a = Some s' -> invariant s'.
Proof.
  intros Hinv. destruct a as [f|p r]; simpl.
  - intros [= <-]. by apply add_invariant.
  - intros [Hp ->]%resume_Some. by apply process_invariant, resumed_invariant.
Qed.

Lemma step_config s a s' :
  step s a = Some s' ->
  maxConcurrent s' = maxConcurrent s /\
  added s' = (added s + (if is_add a then 1 else 0))%nat.
Proof.
  destruct a as [f|p r]; simpl.
  - intros [= <-]. unfold add, process. simpl.
    match goal with |- context [process_queue ?q ?s0] =>
      destruct (process_queue_config q s0) as [-> ->] end.
    simpl. split; [done|lia].
  - intros [Hp ->]%resume_Some. unfold process.
    match goal with |- context [process_queue ?q ?s0] =>
      destruct (process_queue_config q s0) as [-> ->] end.
    simpl. split; [done|lia].
Qed.

Lemma step_bounded s a s' : bounded s -> step s a = Some s' -> bounded s'.
Proof.
  intros [Hrun Hall]. destruct a as [f|p r]; simpl.
  - intros [= <-]. by apply process_queue_bounded.
  - intros [Hp ->]%resume_Some. apply process_queue_bounded.
    unfold bounded, limit in *. split; simpl; [lia|]. constructor; [lia|done].
Qed.

Lemma run_invariant acts : forall s s',
  invariant s -> run s acts = Some s' ->
  invariant s' /\
  maxConcurrent s' = maxConcurrent s /\
  added s' = (added s + submissions acts)%nat /\
  (bounded s -> bounded s').
Proof.
  induction acts as [|a acts IH]; intros s s' Hinv; simpl.
  { intros [= <-]. split_and!; [done|done|unfold submissions; simpl; lia|done]. }
  destruct (step s a) as [s1|] eqn:Hstep; [|done].
  intros Hrun.
  destruct (IH s1 s' (step_invariant _ _ _ Hinv Hstep) Hrun) as (Hi & Hm & Ha & Hb).
  destruct (step_config _ _ _ Hstep) as [Hm1 Ha1].
  split_and!.
  - done.
  - congruence.
  - rewrite Ha, Ha1. unfold submissions. simpl. destruct (is_add a); simpl; lia.
  - intros Hbs. apply Hb. by eapply step_bounded.
Qed.

(** [process] leaves no free slot beside a waiting entry, when it is called
    with at most one entry queued or at most one slot free. *)
Lemma process_queue_busy q : forall s,
  queue s = q ->
  (length q <= 1)%nat \/ limit s - 1 <= running s ->
  queue (process_queue q s) = [] \/
  limit (process_queue q s) <= running (process_queue q s).
Proof.
  induction q as [|e rest IH]; intros s Hq Hpre; [by left|].
  rewrite process_queue_cons.
  destruct (Z.geb_spec (running s) (limit s)) as [Hfull|Hfree]; [by right|].
  unfold limit in *.
  destruct (requestFunction e) as [error|].
  - apply IH; [done|]. simpl in *. destruct Hpre as [Hone|Hslot]; [left; lia|right; lia].
  - simpl in *. destruct Hpre as [Hone|Hslot].
    + left. destruct rest; [done|simpl in Hone; lia].
    + right. lia.
Qed.

Lemma step_busy s a s' :
  queue s = [] \/ limit s <= running s ->
  step s a = Some s' ->
  queue s' = [] \/ limit s' <= running s'.
Proof.
  intros Hbusy. destruct a as [f|p r]; simpl.
  - intros [= <-]. unfold add, process. simpl. apply process_queue_busy; [done|].
    unfold limit in *. simpl.
    destruct Hbusy as [->|Hfull]; [left; simpl; lia|right; lia].
  - intros [Hp ->]%resume_Some. unfold process. apply process_queue_busy; [done|].
    unfold limit in *. simpl.
    destruct Hbusy as [->|Hfull]; [left; simpl; lia|right; lia].
Qed.

Lemma run_busy (acts : list action) : forall s s',
  queue s = [] \/ limit s <= running s ->
  run s acts = Some s' ->
  queue s' = [] \/ limit s' <= running s'.
Proof.
  induction acts as [|a acts IH]; intros s s' Hb; simpl.
  - by intros [= <-].
  - destruct (step s a) as [s1|] eqn:Hstep; [|done].
    apply IH. by eapply step_busy.
Qed.

(** What the test [running >= maxConcurrent] of [process] says of the
    limit. *)
Lemma full_limit s :
  (maxConcurrent s <= inject_Z (running s))%Q <-> limit s <= running s.
Proof. apply Qle_inject_ceiling. Qed.

Lemma free_limit s :
  (inject_Z (running s) < maxConcurrent s)%Q <-> running s < limit s.
Proof. apply Qlt_inject_ceiling. Qed.

Lemma positive_limit s : (0 < maxConcurrent s)%Q <-> 1 <= limit s.
Proof.
  change 0%Q with (inject_Z 0). unfold limit. rewrite Qlt_inject_ceiling. lia.
Qed.

Lemma integer_limit s n : (maxConcurrent s == inject_Z n)%Q -> limit s = n.
Proof. intros H. by apply integer_floor_ceiling. Qed.

(** What holds in every state a queue reaches. *)
Lemma reachable (mc : option Q) (acts : list action) s :
  run (new (T:=T) (E:=E) mc) acts = Some s ->
  invariant s /\
  maxConcurrent s = maxConcurrent (new (T:=T) (E:=E) mc) /\
  added s = submissions acts /\
  (queue s = [] \/ limit s <= running s) /\
  (0 <= limit s -> bounded s).
Proof.
  intros Hrun.
  destruct (run_invariant acts _ _ (new_invariant mc) Hrun) as (Hi & Hm & Ha & Hb).
  split_and!; [done|done|done| |].
  - eapply run_busy; [|exact Hrun]. by left.
  - intros H. apply Hb, new_bounded. by rewrite <- (limit_config _ _ Hm).
Qed.

(** C1 (amended): for every RequestQueue with [maxConcurrent] at least 1
    and every sequence of [add] calls and settlements, [maxConcurrent]
    keeps its value, [running] is the number of request functions awaited,
    and [running], like every value it has taken since the construction,
    is at most the least integer that is not below [maxConcurrent]: at most
    [maxConcurrent] when that is an integer. *)
Theorem running_never_exceeds (mc : option Q) (acts : list action) s :
  (1 <= maxConcurrent (new (T:=T) (E:=E) mc))%Q ->
  run (new mc) acts = Some s ->
  maxConcurrent s = maxConcurrent (new (T:=T) (E:=E) mc) /\
  running s = Z.of_nat (length (awaiting s)) /\
  running s <= limit s /\
  Forall (fun r => r <= limit s) (counter s) /\
  (inject_Z (running s) < maxConcurrent s + 1)%Q /\
  (forall n : Z, (maxConcurrent s == inject_Z n)%Q ->
     running s <= n /\ Forall (fun r => r <= n) (counter s)).
Proof.
  intros Hmc Hrun.
  destruct (reachable mc acts s Hrun) as (Hi & Hm & _ & _ & Hb).
  assert (1 <= limit s) as Hlim.
  { apply positive_limit. rewrite Hm. lra. }
  destruct Hb as [Hb1 Hb2]; [lia|].
  split_and!; [done|by destruct Hi|done|done| |].
  - pose proof (Qceiling_lt (maxConcurrent s)) as Hlt. fold (limit s) in Hlt.
    assert (inject_Z (running s) <= inject_Z (limit s))%Q as Hle by by rewrite <- Zle_Qle.
    replace (limit s) with ((limit s - 1) + 1) in Hle by lia.
    rewrite inject_Z_plus in Hle. change (inject_Z 1) with 1%Q in Hle. lra.
  - intros n Hn. by rewrite <- (integer_limit s n Hn).
Qed.

(** C4: for every RequestQueue and every sequence of [add] calls and
    settlements, the request functions called so far are, in the order of
    their calls, the first ones submitted, and the queue holds the others in
    the order of their submission: no request function is called before
    one submitted earlier. *)
Theorem started_in_submission_order (mc : option Q) (acts : list action) s :
  run (new (T:=T) (E:=E) mc) acts = Some s ->
  added s = submissions acts /\
  started s ++ (promise <$> queue s) = seq 0 (added s) /\
  started s = seq 0 (length (started s)) /\
  (forall p p', p ∈ started s -> (p' < p)%nat -> p' ∈ started s).
Proof.
  intros Hrun.
  destruct (run_invariant acts _ _ (new_invariant mc) Hrun) as ([Hord _ _ _] & _ & Ha & _).
  assert (started s = seq 0 (length (started s))) as Hst.
  { apply (f_equal (take (length (started s)))) in Hord.
    rewrite take_app_length in Hord. rewrite Hord at 1.
    rewrite take_seq. f_equal.
    apply (f_equal length) in Hord. rewrite length_take, length_seq in Hord. lia. }
  split_and!; [done|done|done|].
  intros p p' Hp Hlt. rewrite Hst in Hp |- *.
  apply elem_of_seq in Hp. apply elem_of_seq. lia.
Qed.

(** The promises of the entries that throw are promises of the queue. *)
Lemma throwers_queued q p : p ∈ (throwers q).*1 -> p ∈ (promise <$> q).
Proof.
  induction q as [|e rest IH]; simpl; [done|].
  destruct (requestFunction e) as [error|]; [|by intros ?%elem_of_nil].
  rewrite !fmap_cons. simpl.
  intros [->|Hp]%elem_of_cons; [left|right; by apply IH].
Qed.

Lemma throwers_entries q p error :
  (p, error) ∈ throwers q ->
  {| requestFunction := Throws error; promise := p |} ∈ q.
Proof.
  induction q as [|e rest IH]; simpl; [by intros ?%elem_of_nil|].
  destruct (requestFunction e) as [error'|] eqn:Hf; [|by intros ?%elem_of_nil].
  intros [[= -> ->]|Hp]%elem_of_cons; [|right; by apply IH].
  destruct e as [f pe]. simpl in *. subst f. left.
Qed.

(** [process] with a free slot: the request functions at the head of the
    queue that throw are called and their promises rejected, each with its
    own error and with [running] back at its value; the first entry behind
    them, if there is one, has its request function called and is awaited. *)
Lemma process_queue_free q : forall s,
  queue s = q -> invariant s -> running s < limit s ->
  started (process_queue q s)
    = started s ++ (throwers q).*1 ++ (promise <$> take 1 (behind_throwers q)) /\
  queue (process_queue q s) = drop 1 (behind_throwers q) /\
  awaiting (process_queue q s)
    = awaiting s ++ (promise <$> take 1 (behind_throwers q)) /\
  running (process_queue q s)
    = running s + Z.of_nat (length (take 1 (behind_throwers q))) /\
  (forall p error, (p, error) ∈ throwers q ->
     settled (process_queue q s) !! p = Some (Rejected error)) /\
  (forall p, p ∉ (throwers q).*1 ->
     settled (process_queue q s) !! p = settled s !! p).
Proof.
  induction q as [|e rest IH]; intros s Hq Hinv Hfree.
  { simpl. rewrite !app_nil_r. split_and!; [done|done|done|lia| |done].
    by intros p error ?%elem_of_nil. }
  rewrite process_queue_cons.
  destruct (Z.geb_spec (running s) (limit s)) as [Hfull|_]; [lia|].
  destruct (head_is_fresh s e rest Hinv Hq) as (_ & Hnr & _ & Hnone).
  unfold behind_throwers. cbn [throwers].
  destruct (requestFunction e) as [error|] eqn:Hf.
  - set (s1 := release (settle (promise e) (Rejected error) (dispatch e rest s))).
    pose proof (thrown_invariant s e rest error Hinv Hq) as Hinv1. fold s1 in Hinv1.
    assert (running s1 < limit s1) as Hfree1.
    { unfold limit in *. unfold s1. simpl. lia. }
    destruct (IH s1 eq_refl Hinv1 Hfree1) as (Hst & Hqu & Haw & Hru & Hrej & Hsame).
    assert (settled s1 = <[promise e := Rejected error]> (settled s)) as Hset.
    { unfold s1. simpl. by rewrite Hnone. }
    assert (promise e ∉ (throwers rest).*1) as Hfresh.
    { intros Hin. by apply Hnr, throwers_queued. }
    cbn [length drop fmap list_fmap]. fold (behind_throwers rest).
    split_and!.
    + rewrite Hst. unfold s1. simpl. by rewrite <- !app_assoc.
    + done.
    + by rewrite Haw.
    + rewrite Hru. unfold s1. simpl. lia.
    + intros p error' [[= -> ->]|Hin]%elem_of_cons.
      * by rewrite (Hsame _ Hfresh), Hset, lookup_insert_eq.
      * by apply Hrej.
    + intros p Hp. apply not_elem_of_cons in Hp as [Hne Hp].
      by rewrite (Hsame _ Hp), Hset, lookup_insert_ne.
  - cbn [length drop take fmap list_fmap]. simpl.
    split_and!; [done|done|done|lia| |done].
    by intros p error ?%elem_of_nil.
Qed.

(** C5: in every state reached by a RequestQueue with [maxConcurrent]
    above 0, a request that fails does so to its own promise, in either
    way. When a request that is awaited fails, the promise returned by its
    [add] call is rejected with its error, [running] goes through its value
    minus one, and [process] goes on: the request functions at the head of
    the queue that throw when called have their promises rejected, each
    with its own error and with [running] decremented again; the first
    entry behind them has its request function called and is awaited; no
    other promise changes. When [add] is given a request function that
    throws when called, then with a free slot it is called at once, the
    promise returned by this [add] is rejected with its error, [running] is
    incremented and decremented, back at its value, and nothing else
    changes; without a free slot its entry is queued. In each case the invariant and the limit hold again,
    and the queue takes any further [add] and any settlement of an awaited
    request. *)
Theorem failure_stays_local (mc : option Q) (acts : list action) s :
  (0 < maxConcurrent (new (T:=T) (E:=E) mc))%Q ->
  run (new mc) acts = Some s ->
  (forall p error, p ∈ awaiting s ->
     exists s',
       step s (Settle p (Fails error)) = Some s' /\
       settled s' !! p = Some (Rejected error) /\
       (forall p' error', (p', error') ∈ throwers (queue s) ->
          settled s' !! p' = Some (Rejected error')) /\
       (forall p', p' ≠ p -> p' ∉ (throwers (queue s)).*1 ->
          settled s' !! p' = settled s !! p') /\
       started s'
         = started s ++ (throwers (queue s)).*1
             ++ (promise <$> take 1 (behind_throwers (queue s))) /\
       queue s' = drop 1 (behind_throwers (queue s)) /\
       awaiting s'
         = filter (fun p' => p' ≠ p) (awaiting s)
             ++ (promise <$> take 1 (behind_throwers (queue s))) /\
       running s'
         = running s - 1 + Z.of_nat (length (take 1 (behind_throwers (queue s)))) /\
       (running s - 1) ∈ counter s' /\
       invariant s' /\ bounded s' /\
       (forall f, is_Some (step s' (Add f))) /\
       (forall p' r, p' ∈ awaiting s' -> is_Some (step s' (Settle p' r)))) /\
  (forall error,
     let p := (add (Throws error) s).1 in
     let s' := (add (Throws error) s).2 in
     p = added s /\ step s (Add (Throws error)) = Some s' /\
     invariant s' /\ bounded s' /\
     ((inject_Z (running s) < maxConcurrent s)%Q ->
        settled s' !! p = Some (Rejected error) /\
        (forall p', p' ≠ p -> settled s' !! p' = settled s !! p') /\
        started s' = started s ++ [p] /\ queue s' = [] /\
        awaiting s' = awaiting s /\ running s' = running s /\
        counter s' = (running s + 1 - 1) :: (running s + 1) :: counter s) /\
     ((maxConcurrent s <= inject_Z (running s))%Q ->
        queue s' = queue s ++ [{| requestFunction := Throws error; promise := p |}] /\
        settled s' = settled s /\ started s' = started s /\
        awaiting s' = awaiting s /\ running s' = running s)).
Proof.
  intros Hmc Hrun.
  destruct (reachable mc acts s Hrun) as (Hinv & Hm & _ & Hbusy & Hb).
  assert (1 <= limit s) as Hlim.
  { apply positive_limit. by rewrite Hm. }
  destruct Hb as [Hb1 Hb2]; [lia|].
  split.
  - intros p error Hp.
    set (s0 := release (settle p (Rejected error)
                  (set_awaiting (filter (fun p' => p' ≠ p) (awaiting s)) s))).
    pose proof (resumed_invariant p (Rejected error) s Hinv Hp) as Hinv0.
    fold s0 in Hinv0.
    assert (settled s !! p = None) as Hnone.
    { destruct Hinv as [_ _ _ Hpend]. apply Hpend. by left. }
    assert (settled s0 = <[p := Rejected error]> (settled s)) as Hset0.
    { unfold s0. simpl. by rewrite Hnone. }
    assert (bounded s0) as Hb0.
    { unfold bounded, limit in *. split; simpl; [lia|]. constructor; [lia|done]. }
    assert (running s0 < limit s0) as Hfree0.
    { unfold limit in *. unfold s0. simpl. lia. }
    assert (p ∉ (throwers (queue s)).*1) as Hpq.
    { intros Hin%throwers_queued.
      destruct Hinv as [Hord [_ Hsub] _ _].
      assert (NoDup (started s ++ (promise <$> queue s))) as Hnd.
      { rewrite Hord. apply NoDup_seq. }
      apply NoDup_app in Hnd as (_ & Hdisj & _).
      by apply (Hdisj p); [apply Hsub|]. }
    destruct (process_queue_free (queue s0) s0 eq_refl Hinv0 Hfree0)
      as (Hst & Hqu & Haw & Hru & Hrej & Hsame).
    exists (process s0). unfold process. split_and!.
    + simpl. unfold resume. by rewrite bool_decide_eq_true_2.
    + by rewrite (Hsame p Hpq), Hset0, lookup_insert_eq.
    + exact Hrej.
    + intros p' Hne Hp'. by rewrite (Hsame p' Hp'), Hset0, lookup_insert_ne.
    + exact Hst.
    + exact Hqu.
    + exact Haw.
    + rewrite Hru. unfold s0. simpl. lia.
    + destruct (process_queue_counter (queue s0) s0) as [l Hl].
      rewrite Hl. apply elem_of_app. right. simpl. left.
    + by apply process_queue_invariant.
    + by apply process_queue_bounded.
    + intros f. simpl. eexists. reflexivity.
    + intros p' r Hp'. simpl. unfold resume. rewrite bool_decide_eq_true_2 by done.
      eexists. reflexivity.
  - intros error p s'.
    set (e := {| requestFunction := Throws error; promise := added s |}).
    set (s1 := {| maxConcurrent := maxConcurrent s; running := running s;
                  queue := queue s ++ [e]; awaiting := awaiting s;
                  settled := settled s; started := started s;
                  added := S (added s); counter := counter s |}).
    assert (invariant s') as Hinv'.
    { by apply add_invariant. }
    assert (bounded s') as Hb'.
    { by apply process_queue_bounded. }
    split_and!; [done|done|done|done| |].
    + intros Hfree%free_limit.
      assert (queue s = []) as Hq by (destruct Hbusy; [done|lia]).
      assert (invariant s1) as Hinv1.
      { destruct Hinv as [Hord Haw Hr Hpend]. split; cbn -[seq fmap]; [|done..].
        by rewrite fmap_app, app_assoc, Hord, seq_S. }
      assert (queue s1 = [e]) as Hq1.
      { unfold s1. simpl. by rewrite Hq. }
      destruct (process_queue_free [e] s1 Hq1 Hinv1 Hfree)
        as (Hst & Hqu & Haw & Hru & Hrej & Hsame).
      change s' with (process_queue (queue s1) s1). rewrite Hq1.
      split_and!.
      * apply Hrej. left.
      * intros p' Hne. apply Hsame. simpl. by intros ->%list_elem_of_singleton.
      * exact Hst.
      * exact Hqu.
      * by rewrite Haw, app_nil_r.
      * rewrite Hru. simpl. lia.
      * assert (running s1 < limit s1) as Hfree1 by exact Hfree.
        rewrite process_queue_cons.
        by destruct (Z.geb_spec (running s1) (limit s1)) as [Hge|_]; [lia|].
    + intros Hfull%full_limit.
      assert (limit s1 <= running s1) as Hfull1 by exact Hfull.
      assert (s' = s1) as ->.
      { change s' with (process_queue (queue s1) s1).
        destruct (queue s1) as [|e' rest]; [done|].
        rewrite process_queue_cons.
        by destruct (Z.geb_spec (running s1) (limit s1)); [|lia]. }
      done.
Qed.

End QueueFacts.

(** ** Runs of the queue on concrete actions *)

Local Open Scope string_scope.

(** Five requests on two slots; the fourth throws when called. *)
Definition five_requests : list (@action string string) :=
  [Add Awaits; Add Awaits; Add Awaits; Add (Throws "bad request"); Add Awaits;
   Settle 0 (Fails "boom"); Settle 1 (Succeeds "image")].

Lemma running_never_exceeds_witness :
  exists s,
    (1 <= maxConcurrent (new (T:=string) (E:=string) (Some 2%Q)))%Q /\
    run (new (Some 2%Q)) five_requests = Some s /\
    running s = 2 /\ counter s = [2; 1; 2; 1; 2; 1; 2; 1; 0] /\
    Forall (fun r => r <= 2) (counter s).
Proof.
  destruct (run (new (T:=string) (E:=string) (Some 2%Q)) five_requests) as [s|] eqn:Hrun;
    [|by vm_compute in Hrun].
  exists s.
  assert (1 <= maxConcurrent (new (T:=string) (E:=string) (Some 2%Q)))%Q as Hmc
    by (simpl; lra).
  destruct (running_never_exceeds (Some 2%Q) five_requests s Hmc Hrun)
    as (Hm & _ & _ & _ & _ & Hint).
  destruct (Hint 2) as [_ Hall]; [by rewrite Hm|].
  vm_compute in Hrun. injection Hrun as <-.
  split_and!; [done|done|done|done|exact Hall].
Defined.

(** C1 as stated fails for a maximum that is not an integer: with
    [maxConcurrent] 1.5, [running >= maxConcurrent] is false at 1, the
    second request is started and [running] is 2. *)
Lemma running_exceeds_fractional_maximum :
  exists s : @state string string,
    (1 <= maxConcurrent (new (T:=string) (E:=string) (Some (3 # 2)%Q)))%Q /\
    run (new (Some (3 # 2)%Q)) [Add Awaits; Add Awaits] = Some s /\
    running s = 2 /\ awaiting s = [0; 1]%nat /\
    (maxConcurrent s < inject_Z (running s))%Q.
Proof.
  eexists. split; [done|]. split; [reflexivity|]. done.
Qed.

Lemma started_in_submission_order_witness :
  exists s,
    run (new (T:=string) (E:=string) (Some 1%Q)) five_requests = Some s /\
    added s = 5%nat /\ started s = [0; 1; 2]%nat /\
    promise <$> queue s = [3; 4]%nat.
Proof.
  destruct (run (new (T:=string) (E:=string) (Some 1%Q)) five_requests) as [s|] eqn:Hrun;
    [|by vm_compute in Hrun].
  exists s.
  destruct (started_in_submission_order (Some 1%Q) five_requests s Hrun)
    as (Hadded & _ & _ & _).
  split; [done|]. split; [exact Hadded|].
  vm_compute in Hrun. injection Hrun as <-. done.
Defined.

(** Two slots; the third request function throws when it is called; the
    first request fails. *)
Lemma failure_stays_local_witness :
  exists s s' : @state string string,
    (0 < maxConcurrent (new (T:=string) (E:=string) (Some 2%Q)))%Q /\
    run (new (Some 2%Q))
      [Add Awaits; Add Awaits; Add (Throws "bad request"); Add Awaits] = Some s /\
    0%nat ∈ awaiting s /\
    step s (Settle 0 (Fails "boom")) = Some s' /\
    settled s' !! 0%nat = Some (Rejected "boom") /\
    settled s' !! 2%nat = Some (Rejected "bad request") /\
    started s' = [0; 1; 2; 3]%nat /\ running s' = 2.
Proof.
  destruct (run (new (T:=string) (E:=string) (Some 2%Q))
              [Add Awaits; Add Awaits; Add (Throws "bad request"); Add Awaits])
    as [s|] eqn:Hrun; [|by vm_compute in Hrun].
  exists s.
  assert (0 < maxConcurrent (new (T:=string) (E:=string) (Some 2%Q)))%Q as Hmc
    by (simpl; lra).
  destruct (failure_stays_local (Some 2%Q) _ s Hmc Hrun) as [Hfail _].
  assert (0%nat ∈ awaiting s) as Hp.
  { vm_compute in Hrun. injection Hrun as <-. left. }
  destruct (Hfail 0%nat "boom" Hp)
    as (s' & Hstep & Hrej & Hthrown & _ & Hst & _ & _ & Hru & _).
  exists s'.
  vm_compute in Hrun. injection Hrun as <-.
  split_and!; [done|done|done|done|done| |done|done].
  apply Hthrown. left.
Defined.

End RQFacts.

(** * Further properties of the image cache *)

Module ICMore.

Import QArith Qround Lqa Num NumFacts IC ICFacts Notions.

Local Open Scope Z_scope.

#[local] Arguments Qceiling : simpl never.
#[local] Arguments Qfloor : simpl never.

Section CacheMore.

Context {V : Type}.

Implicit Types (c : @ImageCache V) (m : list (string * @entry V)) (k : string).

Lemma alike_keys m1 m2 : Forall2 alike m1 m2 -> map_keys m1 = map_keys m2.
Proof.
  unfold map_keys. induction 1 as [|x y m1 m2 [Hk _] _ IH]; [done|].
  rewrite !fmap_cons. by rewrite Hk, IH.
Qed.

Lemma alike_refl m : Forall2 alike m m.
Proof. induction m; constructor; done. Qed.

Lemma insert_by_timestamp_alike x y m1 m2 :
  alike x y -> Forall2 alike m1 m2 ->
  Forall2 alike (insert_by_timestamp x m1) (insert_by_timestamp y m2).
Proof.
  intros Hxy Hm. induction Hm as [|x' y' m1 m2 Hxy' Hm IH]; simpl.
  - constructor; [done|constructor].
  - rewrite (proj2 Hxy), (proj2 Hxy').
    destruct (timestamp y.2 <=? timestamp y'.2).
    + constructor; [done|]. by constructor.
    + by constructor.
Qed.

Lemma sort_by_timestamp_alike m1 m2 :
  Forall2 alike m1 m2 ->
  Forall2 alike (sort_by_timestamp m1) (sort_by_timestamp m2).
Proof.
  induction 1; simpl; [constructor|]. by apply insert_by_timestamp_alike.
Qed.

Lemma map_set_alike k e1 e2 m1 m2 :
  timestamp e1 = timestamp e2 -> Forall2 alike m1 m2 ->
  Forall2 alike (map_set k e1 m1) (map_set k e2 m2).
Proof.
  intros He Hm. induction Hm as [|[k1 x1] [k2 x2] m1 m2 [Hk Ht] Hm IH]; simpl in *.
  - constructor; [done|constructor].
  - subst k2. destruct (String.eqb k1 k); (constructor; [done|auto]).
Qed.

Lemma map_delete_alike k m1 m2 :
  Forall2 alike m1 m2 -> Forall2 alike (map_delete k m1) (map_delete k m2).
Proof.
  intros Hm. induction Hm as [|[k1 x1] [k2 x2] m1 m2 [Hk Ht] Hm IH]; simpl in *.
  - constructor.
  - subst k2. destruct (String.eqb k1 k); [done|]. constructor; [done|auto].
Qed.

Lemma delete_all_alike r1 r2 : forall m1 m2,
  Forall2 alike r1 r2 -> Forall2 alike m1 m2 ->
  Forall2 alike (delete_all r1 m1) (delete_all r2 m2).
Proof.
  unfold delete_all. intros m1 m2 Hr. revert m1 m2.
  induction Hr as [|x y r1 r2 [Hk _] Hr IH]; intros m1 m2 Hm; simpl; [done|].
  apply IH. rewrite Hk. by apply map_delete_alike.
Qed.

Lemma cleanup_alike c1 c2 :
  maxSize c1 = maxSize c2 -> Forall2 alike (cache c1) (cache c2) ->
  Forall2 alike (cache (cleanup c1)) (cache (cleanup c2)).
Proof.
  intros Hmax%eq_sym%capacity_config Hm. rewrite !cleanup_capacity.
  rewrite Hmax, <- (Forall2_length _ _ _ Hm).
  destruct (Z.of_nat (length (cache c1)) <=? capacity c1); [done|]. simpl.
  apply delete_all_alike; [|done].
  apply Forall2_take. by apply sort_by_timestamp_alike.
Qed.

(** After a hit the map has the keys and timestamps it had. *)
Lemma get_hit_alike c k now v :
  (get k now c).1 = Some v -> Forall2 alike (cache (get k now c).2) (cache c).
Proof.
  rewrite get_lifetime. destruct (map_get k (cache c)) as [e|] eqn:Hget; [|done].
  destruct (lifetime c <? now - timestamp e); [done|]. simpl. intros _.
  clear v. induction (cache c) as [|[k' e'] m IH]; simpl in *; [done|].
  destruct (String.eqb k' k).
  - injection Hget as ->. constructor; [done|apply alike_refl].
  - constructor; [done|by apply IH].
Qed.

(** X1: a hit of [get] changes neither the eviction order nor the keys
    that the next [set] leaves in the cache: reading an entry, however
    often, does not protect it from eviction. *)
Theorem get_hit_keeps_eviction c k now v :
  (get k now c).1 = Some v ->
  eviction_order (get k now c).2 = eviction_order c /\
  forall j w t,
    map_keys (cache (set j w t (get k now c).2)) = map_keys (cache (set j w t c)).
Proof.
  intros Hhit. pose proof (get_hit_alike c k now v Hhit) as Hm.
  split.
  - unfold eviction_order. by apply alike_keys, sort_by_timestamp_alike.
  - intros j w t. apply alike_keys. unfold set. apply cleanup_alike; simpl.
    + by destruct (get_config c k now) as [-> _].
    + by apply map_set_alike.
Qed.

Lemma map_get_filter_keys (P : string -> Prop)
    (dec_key : forall k, Decision (P k))
    (dec_binding : forall kv : string * @entry V, Decision (P kv.1)) k m :
  map_get k (@filter _ _ _ (fun kv => P kv.1) dec_binding m)
  = if dec_key k then map_get k m else None.
Proof.
  induction m as [|[k' e'] m IH]; simpl; [by destruct (dec_key k)|].
  rewrite filter_cons. simpl.
  destruct (dec_binding (k', e')) as [Hk'|Hk']; simpl in *.
  - destruct (String.eqb_spec k' k) as [->|Hne]; [|exact IH].
    by destruct (dec_key k).
  - rewrite IH. destruct (String.eqb_spec k' k) as [->|Hne]; [|done].
    by destruct (dec_key k).
Qed.

(** X2: [set(key, value)] never alters the entry of another key: after the
    call every other key has the entry it had or, if [cleanup] removed it,
    none; and [key] has the new entry or none. *)
Theorem set_touches_one_key c key v now :
  NoDup (map_keys (cache c)) ->
  (map_get key (cache (set key v now c)) = None \/
   map_get key (cache (set key v now c)) =
     Some {| value := v; timestamp := now; accessCount := 1 |}) /\
  forall k, k <> key ->
    map_get k (cache (set key v now c)) = None \/
    map_get k (cache (set key v now c)) = map_get k (cache c).
Proof.
  intros Hnd.
  set (e := {| value := v; timestamp := now; accessCount := 1 |}).
  set (m := map_set key e (cache c)).
  assert (forall k, map_get k (cache (set key v now c)) = None \/
                    map_get k (cache (set key v now c)) = map_get k m) as Hcases.
  { intros k. destruct (set_cache c key v now Hnd) as [Hsmall Hover]. fold e m in Hsmall, Hover.
    destruct (Z.le_gt_cases (Z.of_nat (length m)) (capacity c)) as [H|H].
    - right. by rewrite Hsmall.
    - pose (P := fun k0 : string => k0 ∉ map_keys
                    (take (Z.to_nat (Z.of_nat (length m) - capacity c))
                       (sort_by_timestamp m))).
      assert (cache (set key v now c) = filter (fun kv => P kv.1) m) as ->
        by exact (Hover H).
      rewrite (map_get_filter_keys P (fun k0 => decide (P k0))).
      destruct (decide _); [by right|by left]. }
  split.
  - destruct (Hcases key) as [?|Hk]; [by left|right].
    rewrite Hk. apply map_get_set_eq.
  - intros k Hne. destruct (Hcases k) as [?|Hk]; [by left|right].
    rewrite Hk. by apply map_get_set_ne.
Qed.

Lemma set_within c k v now :
  within c -> within (set k v now c).
Proof.
  intros (Hnd & Hlen & Hmax). unfold within.
  destruct (set_config c k v now) as [->%capacity_config _].
  set (e := {| value := v; timestamp := now; accessCount := 1 |}).
  assert (NoDup (map_keys (cache (with_cache c (map_set k e (cache c)))))) as Hm
    by by apply map_set_NoDup.
  split_and!; [by apply cleanup_NoDup| |done].
  by apply (cleanup_bounded (with_cache c (map_set k e (cache c)))).
Qed.

Lemma get_within c k now :
  within c -> within (get k now c).2.
Proof.
  intros (Hnd & Hlen & Hmax). unfold within.
  destruct (get_config c k now) as [->%capacity_config _].
  rewrite get_lifetime. destruct (map_get k (cache c)) as [e|] eqn:Hget; [|done].
  destruct (_ <? _); simpl.
  - split_and!; [by apply map_delete_NoDup| |done].
    rewrite map_delete_filter by done.
    pose proof (length_filter (fun kv : string * entry => kv.1 ≠ k) (cache c)). lia.
  - assert (k ∈ map_keys (cache c)) as Hin.
    { apply dec_stable. intros Hnin%map_get_None. congruence. }
    split_and!; [by apply map_set_NoDup| |done].
    by rewrite (proj2 (map_set_present k _ (cache c) Hin)).
Qed.

(** X3: whatever calls of [set] and [get] are made on a cache constructed
    with a [maxSize] option that is left out or not negative, at whatever
    clock values, the map has one binding per key and never holds more
    entries than the capacity when a call returns: never more than
    [maxSize] when that is an integer, and less than [maxSize + 1]
    otherwise, [maxSize] being the option, or 100 when the option is left
    out or 0. *)
Theorem cache_stays_within (options : CacheOptions) (os : list call) :
  nonnegative (opt_maxSize options) ->
  let c := do_calls (new (V:=V) options) os in
  NoDup (map_keys (cache c)) /\
  Z.of_nat (length (cache c)) <= capacity c /\
  (inject_Z (Z.of_nat (length (cache c))) < maxSize c + 1)%Q /\
  (integer (maxSize c) -> (inject_Z (Z.of_nat (length (cache c))) <= maxSize c)%Q) /\
  maxSize c = or_else (opt_maxSize options) 100.
Proof.
  intros Hmax c.
  destruct (new_consistent (V:=V) options 0 Hmax) as [(Hnd & Hlen & _) Hone].
  assert (forall os c0, within c0 -> within (do_calls c0 os)) as Hall.
  { clear. induction os as [|o os IH]; intros c0 Hc; [done|].
    unfold do_calls. simpl. apply IH.
    destruct o; simpl; [by apply set_within|by apply get_within]. }
  destruct (Hall os (new options)) as (Hnd' & Hlen' & _).
  { split_and!; [done|done|lia]. }
  fold c in Hlen'.
  split_and!; [done|done| | |].
  - pose proof (Qceiling_lt (maxSize c)) as Hlt. fold (capacity c) in Hlt.
    assert (inject_Z (Z.of_nat (length (cache c))) <= inject_Z (capacity c))%Q as Hle
      by by rewrite <- Zle_Qle.
    replace (capacity c) with ((capacity c - 1) + 1) in Hle by lia.
    rewrite inject_Z_plus in Hle. change (inject_Z 1) with 1%Q in Hle. lra.
  - intros Hint%integer_capacity. rewrite Hint. by rewrite <- Zle_Qle.
  - unfold c. by destruct (do_calls_config (new options) os) as [-> _].
Qed.

End CacheMore.

(** ** Further runs of the cache *)

Local Open Scope string_scope.

Lemma get_hit_keeps_eviction_witness :
  let c := do_calls (new {| opt_maxSize := Some 2%Q; opt_ttl := None |})
             [CallSet "A" "a" 0; CallSet "B" "b" 1] in
  (get "A" 2 c).1 = Some "a" /\
  eviction_order (get "A" 2 c).2 = ["A"; "B"] /\
  map_keys (cache (set "C" "c" 3 (get "A" 2 c).2)) = ["B"; "C"].
Proof.
  intros c.
  assert ((get "A" 2 c).1 = Some "a") as Hhit by done.
  destruct (get_hit_keeps_eviction c "A" 2 "a" Hhit) as [Horder Hset].
  split; [done|]. split.
  - by rewrite Horder.
  - by rewrite (Hset "C" "c" 3).
Defined.

Lemma set_touches_one_key_witness :
  let c := do_calls (new {| opt_maxSize := Some 2%Q; opt_ttl := None |})
             [CallSet "A" "a" 0; CallSet "B" "b" 1] in
  NoDup (map_keys (cache c)) /\
  map_get "A" (cache (set "C" "c" 2 c)) = None /\
  (map_get "B" (cache (set "C" "c" 2 c)) = None \/
   map_get "B" (cache (set "C" "c" 2 c)) = map_get "B" (cache c)).
Proof.
  intros c.
  assert (NoDup (map_keys (cache c))) as Hnd by distinct_keys.
  split; [done|]. split; [done|].
  apply (set_touches_one_key c "C" "c" 2 Hnd). done.
Defined.

Lemma cache_stays_within_witness :
  let c := do_calls (new {| opt_maxSize := Some (5 # 2)%Q; opt_ttl := None |})
             [CallSet "A" "a" 5; CallSet "B" "b" 3; CallGet "A" 9;
              CallSet "C" "c" 7; CallSet "D" "d" 8; CallSet "E" "e" 9] in
  Z.of_nat (length (cache c)) <= 3 /\ map_keys (cache c) = ["C"; "D"; "E"].
Proof.
  intros c.
  destruct (cache_stays_within {| opt_maxSize := Some (5 # 2)%Q; opt_ttl := None |}
              [CallSet "A" "a" 5; CallSet "B" "b" 3; CallGet "A" 9;
               CallSet "C" "c" 7; CallSet "D" "d" 8; CallSet "E" "e" 9])
    as (_ & Hlen & _); [simpl; lra|].
  split; [exact Hlen|done].
Defined.

End ICMore.

(** * Further properties of the cache keys *)

Module KeyMore.

Import Key Notions.

Local Open Scope string_scope.

Lemma unescape_head_escape_char c r :
  unescape_head (escape_char c +:+ r) = Some (c, r).
Proof.
  destruct c as [[] [] [] [] [] [] [] []]; reflexivity.
Qed.

Lemma escape_inj s1 : forall s2, escape s1 = escape s2 -> s1 = s2.
Proof.
  induction s1 as [|c1 s1 IH]; intros [|c2 s2]; simpl; intros H.
  - done.
  - apply (f_equal unescape_head) in H.
    by rewrite unescape_head_escape_char in H.
  - apply (f_equal unescape_head) in H.
    by rewrite unescape_head_escape_char in H.
  - apply (f_equal unescape_head) in H.
    rewrite !unescape_head_escape_char in H. injection H as -> H.
    by rewrite (IH s2 H).
Qed.

Lemma app_cancel_l p : forall s1 s2 : string, p +:+ s1 = p +:+ s2 -> s1 = s2.
Proof. induction p as [|c p IH]; simpl; intros s1 s2 H; [done|]. injection H. apply IH. Qed.

Lemma length_append (s t : string) :
  String.length (s +:+ t) = (String.length s + String.length t)%nat.
Proof. induction s as [|c s IH]; simpl; [done|]. by rewrite IH. Qed.

Lemma append_assoc (s t u : string) : (s +:+ t) +:+ u = s +:+ (t +:+ u).
Proof.
  induction s as [|c s IH]; [done|].
  change (String c ((s +:+ t) +:+ u) = String c (s +:+ (t +:+ u))).
  by rewrite IH.
Qed.

Lemma app_cancel_r (s1 s2 t : string) : s1 +:+ t = s2 +:+ t -> s1 = s2.
Proof.
  revert s2. induction s1 as [|c1 s1 IH]; intros [|c2 s2]; simpl; intros H.
  - done.
  - apply (f_equal String.length) in H. simpl in H.
    rewrite ?length_append in H. simpl in H. lia.
  - apply (f_equal String.length) in H. simpl in H.
    rewrite ?length_append in H. simpl in H. lia.
  - injection H as -> H. by rewrite (IH s2 H).
Qed.

Lemma quote_inj s1 s2 : quote s1 = quote s2 -> s1 = s2.
Proof.
  unfold quote. intros H. apply app_cancel_l in H. apply app_cancel_r in H.
  by apply escape_inj.
Qed.

Lemma append_nil_r (s : string) : s +:+ EmptyString = s.
Proof.
  induction s as [|c s IH]; [done|].
  change (String c (s +:+ EmptyString) = String c s). by rewrite IH.
Qed.

(** The text between the brackets of an object, around one property. *)
Lemma concat_around (sep : string) (post : list string) : forall pre,
  exists p s, forall x,
    String.concat sep (pre ++ x :: post) = p +:+ x +:+ s.
Proof.
  assert (exists s, forall x, String.concat sep (x :: post) = x +:+ s)
    as [s0 Hs0].
  { destruct post as [|y post].
    - exists EmptyString. intros x. by rewrite append_nil_r.
    - by exists (sep +:+ String.concat sep (y :: post)). }
  induction pre as [|a pre (p & s & IH)].
  - exists EmptyString, s0. intros x. simpl app. by rewrite Hs0.
  - exists (a +:+ sep +:+ p), s. intros x.
    rewrite <- app_comm_cons.
    assert (exists y rest, (pre ++ x :: post)%list = y :: rest) as (y & rest & Hy).
    { destruct pre; simpl; eauto. }
    pose proof (IH x) as IHx. rewrite Hy in IHx |- *.
    change (String.concat sep (a :: y :: rest))
      with (a +:+ sep +:+ String.concat sep (y :: rest)).
    rewrite IHx. by rewrite !append_assoc.
Qed.

(** X4: [createKey] tells the texts of a string property apart: two
    parameter objects that differ only in the value of one string property
    (two prompts, say), whatever the characters of the two strings, never
    get the same cache key. *)
Theorem createKey_tells_strings_apart (pre post : list (string * json))
    (k s1 s2 : string) :
  s1 <> s2 ->
  createKey (JObject (pre ++ (k, JString s1) :: post))
  <> createKey (JObject (pre ++ (k, JString s2) :: post)).
Proof.
  intros Hne Heq. apply Hne. revert Heq.
  unfold createKey. cbn [stringify]. intros [= H].
  change (append EmptyString ?x) with x in H.
  apply app_cancel_r in H. revert H.
  rewrite !omap_app.
  set (f := fun kv : string * json => _).
  change (omap f ((k, JString s1) :: post))
    with ((quote k +:+ ":" +:+ quote s1) :: omap f post).
  change (omap f ((k, JString s2) :: post))
    with ((quote k +:+ ":" +:+ quote s2) :: omap f post).
  destruct (concat_around "," (omap f post) (omap f pre)) as (p & s & Hc).
  rewrite !Hc. intros H.
  apply app_cancel_l, app_cancel_r, app_cancel_l, app_cancel_l in H.
  by apply quote_inj.
Qed.

Lemma createKey_tells_strings_apart_witness :
  createKey (JObject [("width", JNumber 512); ("prompt", JString "a cat"); ("seed", JNumber 7)])
  <> createKey (JObject [("width", JNumber 512); ("prompt", JString "a dog"); ("seed", JNumber 7)]).
Proof.
  apply (createKey_tells_strings_apart [("width", JNumber 512)] [("seed", JNumber 7)]
           "prompt" "a cat" "a dog").
  discriminate.
Defined.

End KeyMore.

(** * Further properties of the request queue *)

Module RQMore.

Import QArith Qround Lqa Num NumFacts RQ RQFacts Notions.

Local Open Scope Z_scope.

#[local] Arguments Qceiling : simpl never.

Section QueueMore.

Context {T E : Type}.

Implicit Types (s : @state T E) (q : list (@queued E)) (p : nat).

(** X5: in every state a RequestQueue reaches, an entry waits in the queue
    only while [running] has reached [maxConcurrent]: [process] never
    leaves a slot free beside a waiting request. *)
Theorem waits_only_when_full (mc : option Q) (acts : list action) s :
  run (new (T:=T) (E:=E) mc) acts = Some s ->
  queue s = [] \/ (maxConcurrent s <= inject_Z (running s))%Q.
Proof.
  intros Hrun. rewrite full_limit.
  eapply run_busy; [|exact Hrun]. by left.
Qed.

(** One call of [process] starts at most one request that stays awaited. *)
Lemma process_queue_running q : forall s,
  running (process_queue q s) = running s \/
  running (process_queue q s) = running s + 1.
Proof.
  induction q as [|e rest IH]; intros s; [by left|].
  rewrite process_queue_cons.
  destruct (running s >=? limit s); [by left|].
  destruct (requestFunction e) as [error|].
  - destruct (IH (release (settle (promise e) (Rejected error) (dispatch e rest s))))
      as [->| ->]; simpl; [left|right]; lia.
  - right. done.
Qed.

(** [settle] never changes a promise that is settled. *)
Lemma settle_keeps p p' o o' s :
  settled s !! p = Some o -> settled (settle p' o' s) !! p = Some o.
Proof.
  intros Hp. unfold settle. simpl.
  destruct (settled s !! p') eqn:Hp'; [done|].
  rewrite lookup_insert_ne; [done|]. intros ->. congruence.
Qed.

Lemma settle_settles p o s : is_Some (settled (settle p o s) !! p).
Proof.
  unfold settle. simpl. destruct (settled s !! p) eqn:Hp.
  - rewrite Hp. by eexists.
  - rewrite lookup_insert_eq. by eexists.
Qed.

Lemma process_queue_keeps q : forall s p o,
  settled s !! p = Some o -> settled (process_queue q s) !! p = Some o.
Proof.
  induction q as [|e rest IH]; intros s p o Hp; [done|].
  rewrite process_queue_cons.
  destruct (running s >=? limit s); [done|].
  destruct (requestFunction e) as [error|]; [|done].
  apply IH. simpl. by apply (settle_keeps p (promise e) o (Rejected error) (dispatch e rest s)).
Qed.

Lemma step_keeps s a s' p o :
  step s a = Some s' -> settled s !! p = Some o -> settled s' !! p = Some o.
Proof.
  destruct a as [f|p' r]; simpl.
  - intros [= <-] Hp. by apply process_queue_keeps.
  - intros [_ ->]%resume_Some Hp. apply process_queue_keeps. simpl.
    by apply (settle_keeps p p' o _
                (set_awaiting (filter (fun p'' => p'' ≠ p') (awaiting s)) s)).
Qed.

Lemma process_queue_accounted q : forall s,
  accounted s -> accounted (process_queue q s).
Proof.
  induction q as [|e rest IH]; intros s Hacc; [done|].
  rewrite process_queue_cons.
  destruct (running s >=? limit s); [done|].
  destruct (requestFunction e) as [error|].
  - apply IH. intros p. simpl.
    intros [Hp| ->%list_elem_of_singleton]%elem_of_app.
    + destruct (Hacc p Hp) as [?|[o Ho]]; [by left|]. right.
      exists o. by apply (settle_keeps p (promise e) o (Rejected error) (dispatch e rest s)).
    + right. apply (settle_settles (promise e) (Rejected error) (dispatch e rest s)).
  - intros p. simpl.
    intros [Hp| ->%list_elem_of_singleton]%elem_of_app.
    + destruct (Hacc p Hp) as [?|?]; [left|by right]. apply elem_of_app. by left.
    + left. apply elem_of_app. right. left.
Qed.

Lemma step_accounted s a s' : accounted s -> step s a = Some s' -> accounted s'.
Proof.
  intros Hacc. destruct a as [f|p' r]; simpl.
  - intros [= <-]. by apply process_queue_accounted.
  - intros [_ ->]%resume_Some. apply process_queue_accounted.
    intros p. simpl. intros Hp.
    destruct (decide (p = p')) as [->|Hne].
    + right. apply (settle_settles p' _
                      (set_awaiting (filter (fun p'' => p'' ≠ p') (awaiting s)) s)).
    + destruct (Hacc p Hp) as [Haw|[o Ho]].
      * left. by apply list_elem_of_filter.
      * right. exists o.
        by apply (settle_keeps p p' o _
                    (set_awaiting (filter (fun p'' => p'' ≠ p') (awaiting s)) s)).
Qed.

Lemma run_accounted (acts : list action) : forall s s',
  accounted s -> run s acts = Some s' -> accounted s'.
Proof.
  induction acts as [|a acts IH]; intros s s' Hacc; simpl.
  - by intros [= <-].
  - destruct (step s a) as [s1|] eqn:Hstep; [|done].
    apply IH. by eapply step_accounted.
Qed.

(** X6: in every state a RequestQueue reaches, each promise returned by
    [add] is in exactly one of three conditions: its entry is queued, its
    request function has not been called and it is not settled; or its
    request is awaited and it is not settled; or its request function has
    been called, is no longer awaited, and the promise is settled. No
    request that was started is lost. *)
Theorem promise_conditions (mc : option Q) (acts : list action) s p :
  run (new (T:=T) (E:=E) mc) acts = Some s ->
  (p < added s)%nat ->
  (p ∈ (promise <$> queue s) /\ (p ∉ started s) /\ (p ∉ awaiting s) /\
     settled s !! p = None) \/
  (p ∈ started s /\ (p ∉ (promise <$> queue s)) /\ p ∈ awaiting s /\
     settled s !! p = None) \/
  (p ∈ started s /\ (p ∉ (promise <$> queue s)) /\ (p ∉ awaiting s) /\
     is_Some (settled s !! p)).
Proof.
  intros Hrun Hp.
  destruct (run_invariant acts _ _ (new_invariant mc) Hrun)
    as ([Hord [_ Hsub] _ Hpend] & _).
  assert (accounted s) as Hacc.
  { eapply run_accounted; [|exact Hrun]. intros p' Hp'. by apply elem_of_nil in Hp'. }
  assert (NoDup (started s ++ (promise <$> queue s))) as Hnd.
  { rewrite Hord. apply NoDup_seq. }
  apply NoDup_app in Hnd as (_ & Hdisj & _).
  assert (p ∈ started s ++ (promise <$> queue s)) as Hin.
  { rewrite Hord. apply elem_of_seq. lia. }
  apply elem_of_app in Hin as [Hst|Hq].
  - destruct (decide (p ∈ awaiting s)) as [Haw|Hnaw].
    + right. left. split_and!; [done|by apply Hdisj|done|]. apply Hpend. by left.
    + right. right. split_and!; [done|by apply Hdisj|done|].
      by destruct (Hacc p Hst).
  - assert (p ∉ started s) as Hns by (intros Hst; by apply (Hdisj p Hst)).
    left. split_and!; [done|done|by intros ?%Hsub|]. apply Hpend. by right.
Qed.

Lemma process_queue_full q s :
  limit s <= running s -> process_queue q s = s.
Proof.
  intros Hfull. destruct q as [|e rest]; [done|].
  rewrite process_queue_cons.
  by destruct (Z.geb_spec (running s) (limit s)); [|lia].
Qed.

(** X7: a RequestQueue constructed with [maxConcurrent] 0 or less never
    calls a request function: every [add] only lengthens the queue, no
    promise is ever settled, and no settlement can occur. *)
Theorem no_slot_never_starts (n : Q) (acts : list action) s :
  (n <= 0)%Q ->
  run (new (T:=T) (E:=E) (Some n)) acts = Some s ->
  started s = [] /\ awaiting s = [] /\ settled s = ∅ /\ running s = 0 /\
  length (queue s) = length acts /\
  Forall (fun a => is_add a = true) acts.
Proof.
  intros Hn%(Qle_inject_ceiling n 0).
  assert (forall acts (s0 s1 : @state T E),
            maxConcurrent s0 = n -> running s0 = 0 -> awaiting s0 = [] ->
            started s0 = [] -> settled s0 = ∅ ->
            run s0 acts = Some s1 ->
            started s1 = [] /\ awaiting s1 = [] /\ settled s1 = ∅ /\ running s1 = 0 /\
            length (queue s1) = (length (queue s0) + length acts)%nat /\
            Forall (fun a => is_add a = true) acts) as Hrun.
  { clear acts s. induction acts as [|a acts IH]; intros s0 s1 Hm Hr Ha Hs Hset; simpl.
    - intros [= <-]. split_and!; [done..|lia|constructor].
    - destruct a as [f|p r]; simpl.
      + unfold add, process. simpl.
        rewrite process_queue_full by (unfold limit; simpl; rewrite Hm; lia).
        intros Hrun. apply IH in Hrun as (? & ? & ? & ? & Hlen & ?); [|done..].
        simpl in Hlen. rewrite length_app in Hlen. simpl in Hlen.
        split_and!; [done..|lia|by constructor].
      + unfold resume. rewrite Ha. rewrite bool_decide_eq_false_2; [done|].
        apply not_elem_of_nil. }
  intros Hr. by apply (Hrun acts (new (Some n)) s) in Hr.
Qed.

(** X8: when a request awaited in a reachable state succeeds, the promise
    returned by its [add] call is resolved with the result of the request;
    any other promise is as before, or is that of a queued request function
    that threw when called, rejected with its own error. *)
Theorem success_reaches_own_promise (mc : option Q) (acts : list action) s p x :
  run (new (T:=T) (E:=E) mc) acts = Some s ->
  p ∈ awaiting s ->
  exists s',
    step s (Settle p (Succeeds x)) = Some s' /\
    settled s' !! p = Some (Resolved x) /\
    running s' <= running s /\
    (forall p', p' ≠ p ->
       settled s' !! p' = settled s !! p' \/
       exists error',
         {| requestFunction := Throws error'; promise := p' |} ∈ queue s /\
         settled s' !! p' = Some (Rejected error')).
Proof.
  intros Hrun Hp.
  destruct (run_invariant acts _ _ (new_invariant mc) Hrun) as (Hinv & _).
  set (s0 := release (settle p (Resolved x)
                (set_awaiting (filter (fun p' => p' ≠ p) (awaiting s)) s))).
  pose proof (resumed_invariant p (Resolved x) s Hinv Hp) as Hinv0. fold s0 in Hinv0.
  assert (settled s !! p = None) as Hnone.
  { destruct Hinv as [_ _ _ Hpend]. apply Hpend. by left. }
  assert (settled s0 = <[p := Resolved x]> (settled s)) as Hset0.
  { unfold s0. simpl. by rewrite Hnone. }
  exists (process s0). split_and!.
  - simpl. unfold resume. by rewrite bool_decide_eq_true_2.
  - apply process_queue_keeps. by rewrite Hset0, lookup_insert_eq.
  - destruct (process_queue_running (queue s0) s0) as [Hsame|Hone]; unfold process.
    + rewrite Hsame. simpl. lia.
    + rewrite Hone. simpl. lia.
  - intros p' Hne.
    destruct (process_queue_settled (queue s0) s0 eq_refl Hinv0 p')
      as [Hsame|(error' & Hin & Hrej)].
    + left. unfold process. by rewrite Hsame, Hset0, lookup_insert_ne.
    + right. by exists error'.
Qed.

(** Each dispatch shortens the queue; a request that is awaited after it
    adds one awaited request. *)
Lemma process_queue_backlog q : forall s,
  queue s = q ->
  (backlog (process_queue q s) <= backlog s)%nat.
Proof.
  induction q as [|e rest IH]; intros s Hq; [done|].
  rewrite process_queue_cons.
  destruct (running s >=? limit s); [done|].
  unfold backlog in *.
  destruct (requestFunction e) as [error|].
  - etrans; [apply IH; done|]. simpl. rewrite Hq. simpl. lia.
  - simpl. rewrite Hq, length_app. simpl. lia.
Qed.

Lemma settle_backlog s p r s' :
  invariant s -> step s (Settle p r) = Some s' -> (backlog s' < backlog s)%nat.
Proof.
  intros [_ [Hnd _] _ _]. simpl. intros [Hp ->]%resume_Some.
  eapply Nat.le_lt_trans; [by apply process_queue_backlog|].
  unfold backlog. simpl.
  pose proof (length_filter_ne (awaiting s) p Hnd Hp). lia.
Qed.

Lemma drains (r : nat -> @settlement T E) (n : nat) : forall s,
  invariant s -> accounted s -> 1 <= limit s ->
  queue s = [] \/ limit s <= running s ->
  (backlog s <= n)%nat ->
  exists ps s',
    run s ((fun p => Settle p (r p)) <$> ps) = Some s' /\
    invariant s' /\ accounted s' /\
    queue s' = [] /\ awaiting s' = [] /\ added s' = added s.
Proof.
  induction n as [|n IH]; intros s Hinv Hacc Hmc Hbusy Hn.
  - exists [], s. unfold backlog in Hn.
    destruct (queue s), (awaiting s); simpl in Hn; try lia. done.
  - destruct (awaiting s) as [|p aw] eqn:Haw.
    + exists [], s. split_and!; try done.
      destruct Hbusy as [?|Hfull]; [done|].
      destruct Hinv as [_ _ Hrun _]. rewrite Haw in Hrun. simpl in Hrun. lia.
    + destruct (step s (Settle p (r p))) as [s1|] eqn:Hstep.
      2:{ simpl in Hstep. unfold resume in Hstep.
          rewrite bool_decide_eq_true_2 in Hstep; [done|]. rewrite Haw. left. }
      pose proof (settle_backlog s p (r p) s1 Hinv Hstep) as Hlt.
      destruct (step_config s _ s1 Hstep) as [Hmc1%limit_config Hadd1].
      simpl in Hadd1.
      destruct (IH s1) as (ps & s' & Hrun & Hinv' & Hacc' & Hq & Haw' & Hadd).
      * by eapply step_invariant.
      * by eapply step_accounted.
      * lia.
      * by eapply step_busy.
      * lia.
      * exists (p :: ps), s'. rewrite fmap_cons. simpl run. simpl in Hstep.
        rewrite Hstep. split_and!; try done. lia.
Qed.

Lemma settlements_backlog (settles : list action) : forall s s',
  invariant s ->
  Forall (fun a => is_add a = false) settles ->
  run s settles = Some s' ->
  (length settles + backlog s' <= backlog s)%nat /\ submissions settles = 0%nat.
Proof.
  induction settles as [|a settles IH]; intros s s' Hinv Hall; simpl.
  - intros [= <-]. split; [lia|done].
  - destruct (step s a) as [s1|] eqn:Hstep; [|done]. intros Hrun.
    inversion Hall as [|a' l' Ha Hall']; subst.
    destruct a as [f|p r]; [done|].
    pose proof (settle_backlog s p r s1 Hinv Hstep) as Hlt.
    destruct (IH s1 s' (step_invariant _ _ _ Hinv Hstep) Hall' Hrun) as [Hle Hsub].
    split; [lia|]. unfold submissions in *. simpl. exact Hsub.
Qed.

(** X9: a RequestQueue with [maxConcurrent] above 0 drains. From any
    state it reaches, as long as no further [add] is made: at most
    2 * queued + awaited settlements can occur; every awaited request can
    settle; once no request is awaited the queue is empty, [running] is 0,
    and every request function submitted has been called and its promise
    is settled; and settling awaited requests one after the other leads
    to such a state. No request waits for ever behind settled ones. *)
Theorem queue_drains (mc : option Q) (acts settles : list action) s s' :
  (0 < maxConcurrent (new (T:=T) (E:=E) mc))%Q ->
  run (new mc) acts = Some s ->
  Forall (fun a => is_add a = false) settles ->
  run s settles = Some s' ->
  (length settles + backlog s' <= backlog s)%nat /\
  (forall p r, p ∈ awaiting s' -> is_Some (step s' (Settle p r))) /\
  (awaiting s' = [] ->
     queue s' = [] /\ running s' = 0 /\
     forall p, (p < added s)%nat -> p ∈ started s' /\ is_Some (settled s' !! p)) /\
  (forall r : nat -> settlement, exists ps s'',
     run s' ((fun p => Settle p (r p)) <$> ps) = Some s'' /\ awaiting s'' = []).
Proof.
  intros Hmc Hrun Hall Hrun'.
  destruct (run_invariant acts _ _ (new_invariant mc) Hrun) as (Hinv & Hmc1 & _).
  destruct (run_invariant settles _ _ Hinv Hrun') as (Hinv' & Hmc2 & Hadd & _).
  assert (1 <= limit s') as Hlim.
  { apply positive_limit. by rewrite Hmc2, Hmc1. }
  destruct (settlements_backlog settles s s' Hinv Hall Hrun') as [Hle Hsub].
  rewrite Hsub, Nat.add_0_r in Hadd.
  assert (accounted s') as Hacc.
  { eapply run_accounted; [|exact Hrun']. eapply run_accounted; [|exact Hrun].
    intros p' Hp'. by apply elem_of_nil in Hp'. }
  assert (queue s' = [] \/ limit s' <= running s') as Hbusy.
  { eapply run_busy; [|exact Hrun']. eapply run_busy; [|exact Hrun]. by left. }
  split_and!.
  - done.
  - intros p r Hp. simpl. unfold resume. rewrite bool_decide_eq_true_2 by done.
    by eexists.
  - intros Haw.
    assert (running s' = 0) as Hr.
    { destruct Hinv' as [_ _ Hr _]. by rewrite Hr, Haw. }
    assert (queue s' = []) as Hq.
    { destruct Hbusy as [?|Hfull]; [done|]. lia. }
    split_and!; [done|done|].
    intros p Hp. destruct Hinv' as [Hord _ _ _].
    rewrite Hq, app_nil_r, Hadd in Hord.
    assert (p ∈ started s') as Hst. { rewrite Hord. apply elem_of_seq. lia. }
    split; [done|]. destruct (Hacc p Hst) as [Hin|?]; [|done].
    rewrite Haw in Hin. by apply elem_of_nil in Hin.
  - intros r.
    destruct (drains r (backlog s') s' Hinv' Hacc) as (ps & s'' & Hrun'' & _ & _ & _ & Haw & _);
      [lia|done|done|].
    by exists ps, s''.
Qed.

End QueueMore.

(** ** Further runs of the queue *)

Local Open Scope string_scope.

Lemma waits_only_when_full_witness :
  exists s : @state string string,
    run (new (Some 2%Q)) [Add Awaits; Add Awaits; Add Awaits] = Some s /\
    length (queue s) = 1%nat /\ (maxConcurrent s <= inject_Z (running s))%Q.
Proof.
  destruct (run (new (T:=string) (E:=string) (Some 2%Q)) [Add Awaits; Add Awaits; Add Awaits])
    as [s|] eqn:Hrun; [|by vm_compute in Hrun].
  exists s.
  pose proof (waits_only_when_full (Some 2%Q) _ s Hrun) as Hfull.
  vm_compute in Hrun. injection Hrun as <-.
  split; [done|]. split; [done|]. by destruct Hfull as [Hq|Hfull].
Defined.

Lemma promise_conditions_witness :
  exists s : @state string string,
    run (new (Some 2%Q)) five_requests = Some s /\
    (3 < added s)%nat /\
    3%nat ∈ started s /\ (3%nat ∉ awaiting s) /\
    settled s !! 3%nat = Some (Rejected "bad request").
Proof.
  destruct (run (new (T:=string) (E:=string) (Some 2%Q)) five_requests) as [s|] eqn:Hrun;
    [|by vm_compute in Hrun].
  exists s.
  assert ((3 < added s)%nat /\ settled s !! 3%nat = Some (Rejected "bad request"))
    as [Hp Hset].
  { vm_compute in Hrun. injection Hrun as <-. split; [simpl; lia|done]. }
  split; [done|]. split; [done|].
  destruct (promise_conditions (Some 2%Q) five_requests s 3%nat Hrun Hp)
    as [(_ & _ & _ & Hnone)|[(_ & _ & _ & Hnone)|(Hst & _ & Haw & _)]];
    [congruence|congruence|done].
Defined.

Lemma no_slot_never_starts_witness :
  exists s : @state string string,
    run (new (Some 0%Q)) [Add Awaits; Add (Throws "bad request")] = Some s /\
    started s = [] /\ running s = 0 /\ length (queue s) = 2%nat.
Proof.
  destruct (run (new (T:=string) (E:=string) (Some 0%Q)) [Add Awaits; Add (Throws "bad request")])
    as [s|] eqn:Hrun; [|by vm_compute in Hrun].
  exists s. split; [done|].
  destruct (no_slot_never_starts 0%Q _ s (Qle_refl 0) Hrun)
    as (Hst & _ & _ & Hr & Hlen & _).
  done.
Defined.

Lemma success_reaches_own_promise_witness :
  exists s s' : @state string string,
    run (new (Some 2%Q)) [Add Awaits; Add Awaits; Add Awaits] = Some s /\
    1%nat ∈ awaiting s /\
    step s (Settle 1 (Succeeds "image")) = Some s' /\
    settled s' !! 1%nat = Some (Resolved "image") /\
    running s' <= running s.
Proof.
  destruct (run (new (T:=string) (E:=string) (Some 2%Q)) [Add Awaits; Add Awaits; Add Awaits])
    as [s|] eqn:Hrun; [|by vm_compute in Hrun].
  exists s.
  assert (1%nat ∈ awaiting s) as Hp.
  { vm_compute in Hrun. injection Hrun as <-. right. left. }
  destruct (success_reaches_own_promise (Some 2%Q) _ s 1%nat "image" Hrun Hp)
    as (s' & Hstep & Hres & Hrun' & _).
  by exists s'.
Defined.

Lemma queue_drains_witness :
  exists s s' : @state string string,
    run (new (Some 2%Q)) [Add Awaits; Add Awaits; Add (Throws "bad request"); Add Awaits]
      = Some s /\
    run s [Settle 1 (Fails "boom"); Settle 0 (Succeeds "image");
           Settle 3 (Succeeds "image")] = Some s' /\
    awaiting s' = [] /\ queue s' = [] /\ running s' = 0 /\
    forall p, (p < 4)%nat -> p ∈ started s' /\ is_Some (settled s' !! p).
Proof.
  destruct (run (new (T:=string) (E:=string) (Some 2%Q))
              [Add Awaits; Add Awaits; Add (Throws "bad request"); Add Awaits])
    as [s|] eqn:Hrun; [|by vm_compute in Hrun].
  destruct (run s [Settle 1 (Fails "boom"); Settle 0 (Succeeds "image");
                   Settle 3 (Succeeds "image")])
    as [s'|] eqn:Hrun'.
  2:{ vm_compute in Hrun. injection Hrun as <-. by vm_compute in Hrun'. }
  exists s, s'.
  assert (0 < maxConcurrent (new (T:=string) (E:=string) (Some 2%Q)))%Q as Hmc
    by (simpl; lra).
  assert (Forall (fun a : @action string string => is_add a = false)
            [Settle 1 (Fails "boom"); Settle 0 (Succeeds "image");
             Settle 3 (Succeeds "image")]) as Hall
    by (repeat constructor).
  destruct (queue_drains (Some 2%Q) _ _ s s' Hmc Hrun Hall Hrun') as (_ & _ & Hdone & _).
  assert (awaiting s' = [] /\ added s = 4%nat) as [Haw Hadded].
  { vm_compute in Hrun. injection Hrun as <-.
    vm_compute in Hrun'. injection Hrun' as <-. done. }
  destruct (Hdone Haw) as (Hq & Hr & Hsettled). rewrite Hadded in Hsettled.
  done.
Defined.

End RQMore.

(** * Properties of the client *)

Module APIFacts.

Import QArith Qround Lqa Num NumFacts API.

Local Open Scope string_scope.

#[local] Arguments Qceiling : simpl never.
#[local] Arguments Qfloor : simpl never.

(** *** Blank strings *)

Lemma trim_start_has_text s : has_text (trim_start s) = has_text s.
Proof.
  induction s as [|c s IH]; simpl; [done|].
  destruct (is_white_space c) eqn:Hc; simpl; [done|]. by rewrite Hc.
Qed.

Lemma trim_end_empty s : trim_end s = EmptyString <-> has_text s = false.
Proof.
  induction s as [|c s IH]; simpl; [done|].
  destruct (trim_end s) as [|c' t] eqn:Ht.
  - rewrite (proj1 IH eq_refl), orb_false_r.
    destruct (is_white_space c); simpl; split; done.
  - destruct (has_text s); [|by pose proof (proj2 IH eq_refl)].
    rewrite orb_true_r. split; done.
Qed.

Lemma length_zero s : (String.length s =? 0)%nat = true <-> s = EmptyString.
Proof. destruct s; simpl; split; done. Qed.

(** [!p || p.trim().length === 0] holds of the strings without text. *)
Lemma blank_has_text s : blank (Some s) = negb (has_text s).
Proof.
  unfold blank, trim.
  destruct (has_text s) eqn:Hs; simpl.
  - apply orb_false_iff. split.
    + destruct s; [done|]. done.
    + destruct (String.length (trim_end (trim_start s)) =? 0)%nat eqn:Hl; [|done].
      apply length_zero, trim_end_empty in Hl. rewrite trim_start_has_text in Hl.
      congruence.
  - apply orb_true_iff. right. apply length_zero, trim_end_empty.
    by rewrite trim_start_has_text.
Qed.

(** *** Numbers *)

Lemma outside_or_else x d lo hi :
  outside x lo hi = false -> default_or_within (or_else x d) d lo hi.
Proof.
  unfold outside, or_else, default_or_within, Qltb.
  destruct x as [v|]; [|by left].
  destruct (truthy v); simpl; [|by left].
  intros [H1 H2]%orb_false_iff. right.
  apply negb_false_iff, Qle_bool_iff in H1, H2. done.
Qed.

Lemma validation_failure_None errors :
  validation_failure errors = None <-> errors = [].
Proof. unfold validation_failure. destruct errors; simpl; split; done. Qed.

Lemma generation_errors_nil o :
  generation_errors o = [] <->
  blank (prompt o) = false /\ outside (height o) 128 2048 = false /\
  outside (width o) 128 2048 = false /\ outside (guidance_scale o) 1 20 = false /\
  outside (steps o) 1 50 = false.
Proof.
  unfold generation_errors.
  destruct (blank (prompt o)), (outside (height o) 128 2048),
    (outside (width o) 128 2048), (outside (guidance_scale o) 1 20),
    (outside (steps o) 1 50); simpl; split; (done || by intros (? & ? & ? & ? & ?)).
Qed.

Section Sent.

Variable toString : Q -> string.

(** X10: when [generateImage] gets as far as its request, that is when
    [validateGenerationOptions] did not throw, the prompt it sends has a
    character that is not white space, and each of the height, width,
    guidance scale and steps it sends is the default of the client or lies
    in the validated range (128 to 2048, 128 to 2048, 1 to 20, 1 to 50);
    the parameters are sent in a fixed order, [seed] last and only when
    the options have one. *)
Theorem generateImage_sends_checked_numbers api o ps :
  generateImage_params toString api o = inr ps ->
  exists p h w g st ms,
    prompt o = Some p /\ has_text p = true /\
    ps = ([("prompt", p); ("height", toString h); ("width", toString w);
           ("guidance_scale", toString g); ("steps", toString st);
           ("max_seq_length", toString ms)]
          ++ match seed o with Some n => [("seed", toString n)] | None => [] end)%list /\
    default_or_within h (d_height (defaults api)) 128 2048 /\
    default_or_within w (d_width (defaults api)) 128 2048 /\
    default_or_within g (d_guidance_scale (defaults api)) 1 20 /\
    default_or_within st (d_steps (defaults api)) 1 50.
Proof.
  unfold generateImage_params, validateGenerationOptions.
  destruct (validation_failure (generation_errors o)) eqn:Hv; [done|].
  apply validation_failure_None, generation_errors_nil in Hv
    as (Hp & Hh & Hw & Hg & Hs).
  intros [= <-].
  destruct (prompt o) as [p|] eqn:Hprompt; [|done].
  rewrite blank_has_text in Hp. apply negb_false_iff in Hp.
  exists p, (or_else (height o) (d_height (defaults api))),
    (or_else (width o) (d_width (defaults api))),
    (or_else (guidance_scale o) (d_guidance_scale (defaults api))),
    (or_else (steps o) (d_steps (defaults api))),
    (or_else (max_seq_length o) (d_max_seq_length (defaults api))).
  split_and!; [done|done|done|by apply outside_or_else..].
Qed.

End Sent.

(** *** Batches *)

Lemma prompts_errors_nil prompts :
  prompts_errors prompts = [] <->
  exists ps, prompts = Some ps /\ (1 <= length ps <= 10)%nat /\
             Forall (fun p => has_text p = true) ps.
Proof.
  unfold prompts_errors. destruct prompts as [[|p ps]|].
  - split; [done|]. intros (ps & [= <-] & Hlen & _). simpl in Hlen. lia.
  - cbv beta iota. set (qs := p :: ps).
    assert (length (List.filter (fun p => blank (Some p)) qs) = 0%nat <->
            Forall (fun p => has_text p = true) qs) as Hblank.
    { clear. induction qs as [|q qs IH]; [split; [constructor|done]|].
      cbn [List.filter]. rewrite blank_has_text. destruct (has_text q) eqn:Hq; simpl.
      - rewrite IH. split; [by constructor|by inversion 1].
      - split; [done|]. inversion 1; congruence. }
    destruct (Nat.ltb_spec 10 (length qs)) as [Hlong|Hshort].
    + split; [done|]. intros (ps' & [= <-] & Hlen & _). lia.
    + destruct (Nat.ltb_spec 0 (length (List.filter (fun p => blank (Some p)) qs)))
        as [Hsome|Hnone].
      * split; [done|]. intros (ps' & [= <-] & _ & Hall).
        apply Hblank in Hall. lia.
      * split; [|done]. intros _. exists qs. split_and!; [done|simpl; lia|done|].
        apply Hblank. lia.
  - split; [done|]. by intros (ps & ? & _).
Qed.

(** X11: when [generateBatch] gets as far as its request, that is when
    [validateBatchOptions] did not throw, the body holds the argument
    [prompts] of the call. The prompts that were validated, which are the
    property [prompts] of the options when the options have one and the
    argument otherwise, are between 1 and 10, each with a character that
    is not white space: so are the prompts of the body when the options
    have no property [prompts]. Each of the height, width, guidance scale
    and steps of the body is the default of the client or lies in the
    validated range, and [base_seed] is as in the options. *)
Theorem generateBatch_sends_checked_batch api prompts options_prompts o b :
  generateBatch_body api prompts options_prompts o = inr b ->
  b_prompts b = prompts /\
  (exists ps, spread_prompts prompts options_prompts = Some ps /\
              (1 <= length ps <= 10)%nat /\
              Forall (fun p => has_text p = true) ps) /\
  (options_prompts = None ->
   exists ps, b_prompts b = Some ps /\ (1 <= length ps <= 10)%nat /\
              Forall (fun p => has_text p = true) ps) /\
  default_or_within (b_height b) (d_height (defaults api)) 128 2048 /\
  default_or_within (b_width b) (d_width (defaults api)) 128 2048 /\
  default_or_within (b_guidance_scale b) (d_guidance_scale (defaults api)) 1 20 /\
  default_or_within (b_steps b) (d_steps (defaults api)) 1 50 /\
  b_base_seed b = base_seed o.
Proof.
  unfold generateBatch_body, validateBatchOptions, validateGenerationOptions.
  destruct (validation_failure (generation_errors (with_dummy_prompt o))) eqn:Hv; [done|].
  destruct (validation_failure (prompts_errors (spread_prompts prompts options_prompts)))
    eqn:Hp; [done|].
  apply validation_failure_None, generation_errors_nil in Hv
    as (_ & Hh & Hw & Hg & Hs). simpl in *.
  apply validation_failure_None, prompts_errors_nil in Hp as (ps & Hps & Hlen & Hall).
  intros [= <-]. simpl.
  split_and!; [done|by exists ps| |by apply outside_or_else..|done].
  intros ->. simpl in Hps. by exists ps.
Qed.

(** *** The TypeScript validation *)

Lemma ts_generation_errors_nil o :
  ts_validateGenerationOptions o = [] <->
  generation_errors o = [] /\ outside (max_seq_length o) 1 512 = false.
Proof.
  rewrite generation_errors_nil. unfold ts_validateGenerationOptions, outside_limits.
  change (inject_Z (lim_min limits_height)) with 128%Q.
  change (inject_Z (lim_max limits_height)) with 2048%Q.
  change (inject_Z (lim_min limits_width)) with 128%Q.
  change (inject_Z (lim_max limits_width)) with 2048%Q.
  change (inject_Z (lim_min limits_guidance_scale)) with 1%Q.
  change (inject_Z (lim_max limits_guidance_scale)) with 20%Q.
  change (inject_Z (lim_min limits_steps)) with 1%Q.
  change (inject_Z (lim_max limits_steps)) with 50%Q.
  change (inject_Z (lim_min limits_max_seq_length)) with 1%Q.
  change (inject_Z (lim_max limits_max_seq_length)) with 512%Q.
  destruct (blank (prompt o)), (outside (height o) 128 2048),
    (outside (width o) 128 2048), (outside (guidance_scale o) 1 20),
    (outside (steps o) 1 50), (outside (max_seq_length o) 1 512);
    simpl; split; (done || by intros [(? & ? & ? & ? & ?) ?]).
Qed.

(** X12: the TypeScript [validateGenerationOptions] returns no message
    exactly when the [validateGenerationOptions] of the JavaScript client
    does not throw and [max_seq_length] is missing, 0 or between 1 and
    512: the two validations differ in the check of [max_seq_length]
    only. *)
Theorem ts_validation_is_stricter o :
  ts_validateGenerationOptions o = [] <->
  validateGenerationOptions o = None /\ outside (max_seq_length o) 1 512 = false.
Proof.
  unfold validateGenerationOptions.
  by rewrite ts_generation_errors_nil, validation_failure_None.
Qed.

Lemma ts_prompts_errors_nil prompts :
  match prompts with
  | None | Some [] => ["Prompts array is required and cannot be empty"]
  | Some ps =>
      ((if (Z.of_nat (length ps) >? lim_max limits_batch_size)%Z
        then ["Batch size cannot exceed " +:+ pretty (lim_max limits_batch_size)
                +:+ " prompts"]
        else [])
       ++ (if (0 <? length (List.filter (fun p => blank (Some p)) ps))%nat
           then ["All prompts must be non-empty strings"] else []))%list
  end = [] <-> prompts_errors prompts = [].
Proof.
  unfold prompts_errors. destruct prompts as [[|p ps]|]; [done| |done].
  cbv beta iota. set (qs := p :: ps).
  change (lim_max limits_batch_size) with 10%Z.
  destruct (Z.gtb_spec (Z.of_nat (length qs)) 10), (Nat.ltb_spec 10 (length qs));
    try lia; [done|].
  by destruct (0 <? length (List.filter (fun p => blank (Some p)) qs))%nat.
Qed.

(** X13: for options without a property [prompt], the TypeScript
    [validateBatchOptions] returns no message exactly when the
    [validateBatchOptions] of the JavaScript client does not throw and
    [max_seq_length] is missing, 0 or between 1 and 512. *)
Theorem ts_batch_validation_is_stricter prompts o :
  prompt o = None ->
  ts_validateBatchOptions prompts o = [] <->
  validateBatchOptions prompts o = None /\ outside (max_seq_length o) 1 512 = false.
Proof.
  intros Hprompt.
  assert (blank (prompt (with_dummy_prompt o)) = false) as Hdummy.
  { simpl. by rewrite Hprompt. }
  assert (List.filter
            (fun e => negb (String.eqb e "Prompt is required and cannot be empty"))
            (ts_validateGenerationOptions (with_dummy_prompt o)) = [] <->
          ts_validateGenerationOptions (with_dummy_prompt o) = []) as Hfilter.
  { unfold ts_validateGenerationOptions. rewrite Hdummy.
    destruct (outside_limits (height (with_dummy_prompt o)) limits_height),
      (outside_limits (width (with_dummy_prompt o)) limits_width),
      (outside_limits (guidance_scale (with_dummy_prompt o)) limits_guidance_scale),
      (outside_limits (steps (with_dummy_prompt o)) limits_steps),
      (outside_limits (max_seq_length (with_dummy_prompt o)) limits_max_seq_length);
      vm_compute; split; done. }
  unfold ts_validateBatchOptions, validateBatchOptions, validateGenerationOptions.
  rewrite app_nil, Hfilter, ts_prompts_errors_nil, ts_generation_errors_nil.
  destruct (validation_failure (generation_errors (with_dummy_prompt o))) eqn:Hv.
  - split; [|by intros [? _]]. intros (_ & Hgen & _).
    apply validation_failure_None in Hgen. congruence.
  - apply validation_failure_None in Hv. rewrite validation_failure_None. simpl.
    tauto.
Qed.

(** *** makeRequest *)

Section MakeRequestFacts.

Context {J : Type}.
Variable error_of : J -> option string.

Implicit Types (fetch : Z -> @fetched J) (last : option error) (R : Q).

Lemma JaguarAPIError_not_abort msg code : is_abort (JaguarAPIError msg code) = false.
Proof. done. Qed.

(** An iteration that returns. *)
Lemma attempts_succeeded R fetch n a last v :
  verdict_of error_of (fetch a) = Succeeded v ->
  attempts error_of R fetch (S n) a last
  = {| result := Returns v; fetches := 1; delays := [] |}.
Proof.
  simpl. unfold verdict_of, failure_of.
  destruct (fetch a) as [r|e].
  - destruct (ok r); [|done]. destruct (body r) as [e|v']; [|by intros [= ->]].
    by destruct (is_abort e).
  - by destruct (is_abort e).
Qed.

(** An iteration that ends on the timeout. *)
Lemma attempts_timed_out R fetch n a last :
  verdict_of error_of (fetch a) = TimedOut ->
  attempts error_of R fetch (S n) a last
  = {| result := Throws (Some (JaguarAPIError "Request timeout" (Some 408%Z)));
       fetches := 1; delays := [] |}.
Proof.
  simpl. unfold verdict_of, failure_of.
  destruct (fetch a) as [r|e].
  - destruct (ok r); [|done]. destruct (body r) as [e|v']; [|done].
    by destruct (is_abort e).
  - by destruct (is_abort e).
Qed.

(** An iteration after which the loop goes on. The test
    [attempt < retryAttempts] holds of the attempts below the least integer
    that is not below [retryAttempts]: after such an attempt the loop waits
    once, 5000 ms or 1000 ms times the number of the attempt; after another
    one it does not wait and leaves the error as the last error. *)
Lemma attempts_failed R fetch n a last e :
  verdict_of error_of (fetch a) = Failed e ->
  ((a < Qceiling R)%Z /\ exists last' d,
     (d = 5000 \/ d = 1000 * (a + 1))%Z /\
     (last' = last \/ last' = Some e) /\
     attempts error_of R fetch (S n) a last
     = {| result := result (attempts error_of R fetch n (a + 1) last');
          fetches := S (fetches (attempts error_of R fetch n (a + 1) last'));
          delays := d :: delays (attempts error_of R fetch n (a + 1) last') |}) \/
  ((Qceiling R <= a)%Z /\
     attempts error_of R fetch (S n) a last
     = {| result := result (attempts error_of R fetch n (a + 1) (Some e));
          fetches := S (fetches (attempts error_of R fetch n (a + 1) (Some e)));
          delays := delays (attempts error_of R fetch n (a + 1) (Some e)) |}).
Proof.
  intros Hv.
  destruct (Z.ltb_spec a (Qceiling R)) as [Hlt|Hge]; [left|right]; (split; [done|]).
  - cbn [attempts]. rewrite Qltb_ceiling, (proj2 (Z.ltb_lt _ _) Hlt).
    unfold verdict_of, failure_of in Hv.
    destruct (fetch a) as [r|e'].
    + destruct (ok r).
      * destruct (body r) as [e'|v']; [|done].
        destruct (is_abort e') eqn:Hab; [done|]. injection Hv as ->.
        exists (Some e), (1000 * (a + 1))%Z. split_and!; [by right|by right|done].
      * destruct (status r =? 503)%Z; simpl.
        -- exists last, 5000%Z. split_and!; [by left|by left|done].
        -- injection Hv as <-. eexists _, (1000 * (a + 1))%Z.
           split_and!; [by right|by right|done].
    + destruct (is_abort e') eqn:Hab; [done|]. injection Hv as ->.
      exists (Some e), (1000 * (a + 1))%Z. split_and!; [by right|by right|done].
  - cbn [attempts]. rewrite Qltb_ceiling, (proj2 (Z.ltb_ge _ _) Hge).
    unfold verdict_of, failure_of in Hv.
    destruct (fetch a) as [r|e'].
    + destruct (ok r).
      * destruct (body r) as [e'|v']; [|done].
        destruct (is_abort e') eqn:Hab; [done|]. by injection Hv as ->.
      * rewrite andb_false_r. by injection Hv as <-.
    + destruct (is_abort e') eqn:Hab; [done|]. by injection Hv as ->.
Qed.

Lemma attempts_decided_step R fetch n a last out :
  decision (verdict_of error_of (fetch a)) = Some out ->
  attempts error_of R fetch (S n) a last
  = {| result := out; fetches := 1; delays := [] |}.
Proof.
  destruct (verdict_of error_of (fetch a)) as [v| |e] eqn:Hv; simpl decision.
  - intros [= <-]. by apply attempts_succeeded.
  - intros [= <-]. by apply attempts_timed_out.
  - done.
Qed.

Lemma attempts_decided R fetch out k : forall m a n last,
  m = Z.to_nat (k - a) -> (a <= k <= Qfloor R)%Z -> (m < n)%nat ->
  (forall j, (a <= j < k)%Z -> is_failure error_of (fetch j)) ->
  decision (verdict_of error_of (fetch k)) = Some out ->
  result (attempts error_of R fetch n a last) = out /\
  fetches (attempts error_of R fetch n a last) = S m /\
  length (delays (attempts error_of R fetch n a last)) = m.
Proof.
  pose proof (floor_ceiling R) as HR.
  induction m as [|m IH]; intros a n last Hm Hk Hn Hfail Hout.
  - assert (a = k) as -> by lia. destruct n as [|n]; [lia|].
    by rewrite (attempts_decided_step R fetch n k last out Hout).
  - destruct n as [|n]; [lia|].
    destruct (Hfail a) as [e He]; [lia|].
    destruct (attempts_failed R fetch n a last e He)
      as [(_ & last' & d & _ & _ & ->)|(Hge & _)]; [|lia].
    destruct (IH (a + 1)%Z n last') as (Hr & Hf & Hd); [lia|lia|lia| |done|].
    { intros j Hj. apply Hfail. lia. }
    cbn [result fetches delays length]. by rewrite Hr, Hf, Hd.
Qed.

(** All the attempts fail. *)
Lemma attempts_exhausted R fetch : forall m a last,
  m = Z.to_nat (Qfloor R - a) -> (a <= Qfloor R)%Z ->
  (forall j, (a <= j <= Qfloor R)%Z -> is_failure error_of (fetch j)) ->
  fetches (attempts error_of R fetch (S m) a last) = S m /\
  length (delays (attempts error_of R fetch (S m) a last))
    = Z.to_nat (Qceiling R - a) /\
  (Qceiling R = Qfloor R ->
   forall e, verdict_of error_of (fetch (Qfloor R)) = Failed e ->
   result (attempts error_of R fetch (S m) a last) = Throws (Some e)).
Proof.
  pose proof (floor_ceiling R) as HR.
  induction m as [|m IH]; intros a last Hm Ha Hfail.
  - assert (a = Qfloor R) as -> by lia.
    destruct (Hfail (Qfloor R)) as [e' He']; [lia|].
    destruct (attempts_failed R fetch 0 (Qfloor R) last e' He')
      as [(Hlt & last' & d & _ & _ & ->)|(Hge & ->)]; cbn [result fetches delays length attempts].
    + split_and!; [done|lia|lia].
    + split_and!; [done|lia|]. intros _ e He. congruence.
  - destruct (Hfail a) as [e' He']; [lia|].
    destruct (attempts_failed R fetch (S m) a last e' He')
      as [(_ & last' & d & _ & _ & ->)|(Hge & _)]; [|lia].
    destruct (IH (a + 1)%Z last') as (Hf & Hd & Hr); [lia|lia| |].
    { intros j Hj. apply Hfail. lia. }
    cbn [result fetches delays length]. rewrite Hf, Hd.
    split_and!; [done|lia|done].
Qed.

Lemma attempts_bounds R fetch : forall n a last,
  n = Z.to_nat (Qfloor R - a + 1) ->
  (fetches (attempts error_of R fetch n a last) <= n)%nat /\
  ((0 < n)%nat -> (1 <= fetches (attempts error_of R fetch n a last))%nat) /\
  (pred (fetches (attempts error_of R fetch n a last))
     <= length (delays (attempts error_of R fetch n a last))
     <= fetches (attempts error_of R fetch n a last))%nat /\
  (Qceiling R = Qfloor R ->
   length (delays (attempts error_of R fetch n a last))
     = pred (fetches (attempts error_of R fetch n a last))) /\
  Forall (fun d => d = 5000 \/ exists i, a <= i < Qceiling R /\ d = 1000 * (i + 1))%Z
    (delays (attempts error_of R fetch n a last)).
Proof.
  pose proof (floor_ceiling R) as HR.
  induction n as [|n IH]; intros a last Hn.
  { simpl. split_and!; [lia|lia|lia|lia|done|constructor]. }
  destruct (verdict_of error_of (fetch a)) as [v| |e] eqn:Hv.
  - rewrite (attempts_succeeded R fetch n a last v Hv). simpl.
    split_and!; [lia|lia|lia|lia|done|constructor].
  - rewrite (attempts_timed_out R fetch n a last Hv). simpl.
    split_and!; [lia|lia|lia|lia|done|constructor].
  - destruct (attempts_failed R fetch n a last e Hv)
      as [(Hlt & last' & d & Hd & _ & ->)|(Hge & ->)]; cbn [result fetches delays length].
    + destruct (IH (a + 1)%Z last') as (Hf & Hpos & Hlen & Hint & Hall); [lia|].
      assert (Forall (fun d => d = 5000 \/ exists i, a <= i < Qceiling R /\ d = 1000 * (i + 1))%Z
                (d :: delays (attempts error_of R fetch n (a + 1) last'))) as Hds.
      { constructor.
        - destruct Hd as [->| ->]; [by left|right]. exists a. lia.
        - eapply Forall_impl; [exact Hall|]. simpl.
          intros d' [->|(i & Hi & ->)]; [by left|right]. exists i. lia. }
      destruct n as [|n].
      * simpl. split_and!; [lia|lia|lia|lia|lia|exact Hds].
      * specialize (Hpos ltac:(lia)).
        split_and!; [lia|lia|lia|lia| |exact Hds].
        intros Heq. rewrite (Hint Heq). lia.
    + assert (n = 0%nat) as -> by lia. simpl.
      split_and!; [lia|lia|lia|lia|done|constructor].
Qed.

Lemma iterations_positive R : (0 <= R)%Q <-> (0 < iterations R)%nat.
Proof.
  unfold iterations. change 0%Q with (inject_Z 0). rewrite Qle_inject_floor. lia.
Qed.

Lemma iterations_zero R : (R < 0)%Q <-> iterations R = 0%nat.
Proof.
  unfold iterations. change 0%Q with (inject_Z 0). rewrite Qlt_inject_floor. lia.
Qed.

(** X14: [makeRequest] calls [fetch] at most once for each integer from 0
    that is at most [retryAttempts], and at least once when [retryAttempts]
    is not negative. It waits once after each call of [fetch] but the last,
    and after the last one at most once: when [retryAttempts] is an integer
    the number of its waits is the number of its calls of [fetch] less one.
    Each wait lasts at least 1000 ms and at most the larger of 5000 ms and
    1000 ms times the least integer that is not below [retryAttempts]. *)
Theorem makeRequest_bounds api fetch :
  let r := makeRequest error_of api fetch in
  (fetches r <= iterations (retryAttempts api))%nat /\
  ((0 <= retryAttempts api)%Q -> (1 <= fetches r)%nat) /\
  (pred (fetches r) <= length (delays r) <= fetches r)%nat /\
  (integer (retryAttempts api) -> length (delays r) = pred (fetches r)) /\
  Forall (fun d => 1000 <= d <= Z.max 5000 (1000 * Qceiling (retryAttempts api)))%Z
    (delays r).
Proof.
  unfold makeRequest. cbv zeta.
  destruct (attempts_bounds (retryAttempts api) fetch
              (iterations (retryAttempts api)) 0 None)
    as (Hf & Hpos & Hlen & Hint & Hall); [unfold iterations; f_equal; lia|].
  split_and!; [done| |apply Hlen|apply Hlen| |].
  - intros H%iterations_positive. by apply Hpos.
  - intros H%integer_iff. by apply Hint.
  - eapply Forall_impl; [exact Hall|]. simpl.
    intros d [->|(i & Hi & ->)]; lia.
Qed.

(** X15: [makeRequest] is decided by the first attempt that returns a
    body or is aborted by the timer: if the attempts before attempt [k]
    (with [k] at most [retryAttempts]) fail otherwise, and attempt [k]
    succeeds or is aborted, then [makeRequest] returns the body of attempt
    [k], or throws the [JaguarAPIError] [Request timeout] with status 408,
    after exactly [k + 1] calls of [fetch] and [k] waits. A timeout is
    never retried. *)
Theorem makeRequest_first_decisive api fetch k out :
  (0 <= k)%Z -> (inject_Z k <= retryAttempts api)%Q ->
  (forall j, (0 <= j < k)%Z -> is_failure error_of (fetch j)) ->
  decision (verdict_of error_of (fetch k)) = Some out ->
  result (makeRequest error_of api fetch) = out /\
  Z.of_nat (fetches (makeRequest error_of api fetch)) = (k + 1)%Z /\
  Z.of_nat (length (delays (makeRequest error_of api fetch))) = k.
Proof.
  intros Hk0 Hk%Qle_inject_floor Hfail Hout. unfold makeRequest, iterations.
  destruct (attempts_decided (retryAttempts api) fetch out k (Z.to_nat k) 0
              (Z.to_nat (Qfloor (retryAttempts api) + 1)) None) as (Hr & Hf & Hd);
    [f_equal; lia|lia|lia|done|done|].
  rewrite Hr, Hf, Hd. split_and!; [done|lia|lia].
Qed.

(** X16: if every attempt fails (a network error, a response that is
    not ok, a body that cannot be parsed) and none is aborted by the timer,
    [makeRequest] calls [fetch] once for each integer from 0 that is at
    most [retryAttempts], and waits once after each call before which the
    attempt number was below [retryAttempts]; when [retryAttempts] is an
    integer, these are [retryAttempts + 1] calls and [retryAttempts]
    waits, and [makeRequest] throws the error of the last attempt. *)
Theorem makeRequest_exhausted api fetch :
  (0 <= retryAttempts api)%Q ->
  (forall j, (0 <= j)%Z -> (inject_Z j <= retryAttempts api)%Q ->
     is_failure error_of (fetch j)) ->
  Z.of_nat (fetches (makeRequest error_of api fetch))
    = (Qfloor (retryAttempts api) + 1)%Z /\
  Z.of_nat (length (delays (makeRequest error_of api fetch)))
    = Qceiling (retryAttempts api) /\
  (forall n e, (retryAttempts api == inject_Z n)%Q ->
     verdict_of error_of (fetch n) = Failed e ->
     result (makeRequest error_of api fetch) = Throws (Some e) /\
     Z.of_nat (fetches (makeRequest error_of api fetch)) = (n + 1)%Z /\
     Z.of_nat (length (delays (makeRequest error_of api fetch))) = n).
Proof.
  intros HR Hfail. unfold makeRequest, iterations.
  pose proof (floor_ceiling (retryAttempts api)) as Hfc.
  assert (0 <= Qfloor (retryAttempts api))%Z as HF.
  { by apply (proj1 (Qle_inject_floor 0 _)). }
  replace (Z.to_nat (Qfloor (retryAttempts api) + 1))
    with (S (Z.to_nat (Qfloor (retryAttempts api)))) by lia.
  destruct (attempts_exhausted (retryAttempts api) fetch
              (Z.to_nat (Qfloor (retryAttempts api))) 0 None) as (Hf & Hd & Hr);
    [f_equal; lia|lia| |].
  { intros j Hj. apply Hfail; [lia|]. apply Qle_inject_floor. lia. }
  rewrite Hf, Hd. split_and!; [lia|lia|].
  intros n e Hn He. destruct (integer_floor_ceiling _ _ Hn) as [Hfn Hcn].
  rewrite (Hr ltac:(lia) e); [|by rewrite Hfn]. split_and!; [done|lia|lia].
Qed.

Lemma attempts_throws_error R fetch : forall n a last,
  Qceiling R = Qfloor R ->
  n = Z.to_nat (Qfloor R - a + 1) -> (0 < n)%nat ->
  result (attempts error_of R fetch n a last) <> Throws None.
Proof.
  intros n a last Hint. revert a last.
  induction n as [|n IH]; intros a last Hn Hpos; [lia|].
  destruct (verdict_of error_of (fetch a)) as [v| |e] eqn:Hv.
  - by rewrite (attempts_succeeded R fetch n a last v Hv).
  - by rewrite (attempts_timed_out R fetch n a last Hv).
  - destruct (attempts_failed R fetch n a last e Hv)
      as [(Hlt & last' & d & Hd & _ & ->)|(Hge & ->)]; cbn [result].
    + apply IH; lia.
    + assert (n = 0%nat) as -> by lia. done.
Qed.

(** X17: [makeRequest] calls [fetch] not at all exactly when
    [retryAttempts] is negative, and it then throws [undefined]. With a
    [retryAttempts] that is an integer it throws [undefined] in no other
    case: it returns a body or throws an error object. *)
Theorem makeRequest_throws_undefined_iff api fetch :
  (fetches (makeRequest error_of api fetch) = 0%nat
     <-> (retryAttempts api < 0)%Q) /\
  ((retryAttempts api < 0)%Q ->
     makeRequest error_of api fetch
     = {| result := Throws None; fetches := 0; delays := [] |}) /\
  (integer (retryAttempts api) ->
     (result (makeRequest error_of api fetch) = Throws None
        <-> (retryAttempts api < 0)%Q)).
Proof.
  unfold makeRequest.
  assert ((retryAttempts api < 0)%Q ->
          attempts error_of (retryAttempts api) fetch
            (iterations (retryAttempts api)) 0 None
          = {| result := Throws None; fetches := 0; delays := [] |}) as Hneg.
  { intros H%iterations_zero. by rewrite H. }
  split_and!.
  - split; [|by intros ->%Hneg].
    intros Hf. apply Qnot_le_lt. intros Hpos%iterations_positive.
    destruct (attempts_bounds (retryAttempts api) fetch
                (iterations (retryAttempts api)) 0 None) as (_ & H1 & _);
      [unfold iterations; f_equal; lia|].
    specialize (H1 Hpos). lia.
  - exact Hneg.
  - intros Hint%integer_iff. split; [|by intros ->%Hneg].
    intros Hr. apply Qnot_le_lt. intros Hpos%iterations_positive.
    apply attempts_throws_error in Hr; [done|done| |done].
    unfold iterations. f_equal. lia.
Qed.

(** X18: a client constructed with [retryAttempts] 0, or without the
    option, has [retryAttempts] 1: after a first attempt that fails
    (and is not aborted by the timer) [makeRequest] calls [fetch] a second
    time. Retries cannot be switched off with 0. *)
Theorem zero_retries_is_one_retry url (options : ClientOptions) fetch :
  opt_retryAttempts options = None \/
  (exists x, opt_retryAttempts options = Some x /\ (x == 0)%Q) ->
  is_failure error_of (fetch 0%Z) ->
  retryAttempts (new url options) = 1%Q /\
  fetches (makeRequest error_of (new url options) fetch) = 2%nat.
Proof.
  intros Hopt [e He].
  assert (retryAttempts (new url options) = 1%Q) as HR.
  { simpl. destruct Hopt as [-> |(x & -> & Hx)]; [done|].
    unfold or_else, truthy. by rewrite (Qeq_eq_bool _ _ Hx). }
  split; [done|]. unfold makeRequest. rewrite HR.
  change (iterations 1) with 2%nat.
  destruct (attempts_failed 1 fetch 1 0 None e He)
    as [(_ & last' & d & _ & _ & ->)|(Hge & _)]; [|done].
  cbn [fetches]. f_equal. change (0 + 1)%Z with 1%Z.
  destruct (attempts_bounds 1 fetch 1 1 last') as (Hle & Hpos & _); [done|].
  specialize (Hpos ltac:(lia)). lia.
Qed.

End MakeRequestFacts.

(** ** Runs of the client on concrete requests *)

(** A caller's options: a prompt and a height. *)
Definition cat_options : GenerationOptions :=
  {| prompt := Some "a cat"; height := Some 512%Q; width := None;
     guidance_scale := None; steps := None; max_seq_length := None;
     seed := Some 7%Q; base_seed := None |}.

(** Options of a batch: a width, no prompt. *)
Definition batch_options : GenerationOptions :=
  {| prompt := None; height := None; width := Some 768%Q;
     guidance_scale := None; steps := None; max_seq_length := None;
     seed := None; base_seed := Some 3%Q |}.

Definition no_defaults : DefaultsOption :=
  {| o_height := None; o_width := None; o_guidance_scale := None;
     o_steps := None; o_max_seq_length := None |}.

(** [new JaguarFluxAPI(url, { retryAttempts })] *)
Definition client (retryAttempts : option Q) : JaguarFluxAPI :=
  new "https://user--shuttle-jaguar"
    {| opt_defaults := no_defaults; opt_timeout := None;
       opt_retryAttempts := retryAttempts |}.

(** A printer of numbers, as fractions. *)
Definition fraction_toString (x : Q) : string :=
  pretty (Qnum x) +:+ "/" +:+ pretty (Z.pos (Qden x)).

(** A server that answers 503 before the attempt [ready] and then returns
    an image. *)
Definition busy_then_ready (ready attempt : Z) : @fetched string :=
  if (attempt <? ready)%Z
  then Responds {| ok := false; status := 503;
                   body := inl {| name := "SyntaxError";
                                  message := "Unexpected end of JSON input";
                                  statusCode := None |} |}
  else Responds {| ok := true; status := 200; body := inr "image" |}.

(** A network on which every [fetch] rejects. *)
Definition unreachable (attempt : Z) : @fetched string :=
  Rejects {| name := "TypeError"; message := "fetch failed"; statusCode := None |}.

Definition no_error_property (errorData : string) : option string := None.

Lemma generateImage_sends_checked_numbers_witness :
  exists ps p h,
    generateImage_params fraction_toString (client None) cat_options = inr ps /\
    prompt cat_options = Some p /\ has_text p = true /\
    In ("height", fraction_toString h) ps /\
    default_or_within h (d_height (defaults (client None))) 128 2048.
Proof.
  destruct (generateImage_params fraction_toString (client None) cat_options)
    as [e|ps] eqn:Hps; [by vm_compute in Hps|].
  destruct (generateImage_sends_checked_numbers fraction_toString (client None)
              cat_options ps Hps)
    as (p & h & w & g & st & ms & Hp & Htext & Heq & Hh & _).
  exists ps, p, h. split_and!; [done|done|done| |done].
  rewrite Heq. right. by left.
Defined.

Lemma generateBatch_sends_checked_batch_witness :
  exists b,
    generateBatch_body (client None) (Some ["a cat"; "a dog"]) None batch_options
      = inr b /\
    b_prompts b = Some ["a cat"; "a dog"] /\
    default_or_within (b_width b) (d_width (defaults (client None))) 128 2048.
Proof.
  destruct (generateBatch_body (client None) (Some ["a cat"; "a dog"]) None batch_options)
    as [e|b] eqn:Hb; [by vm_compute in Hb|].
  destruct (generateBatch_sends_checked_batch (client None) _ None batch_options b Hb)
    as (Hprompts & _ & _ & _ & Hw & _).
  by exists b.
Defined.

(** [generateBatch([], { prompts: ['a cat'] })]: the validation reads the
    property of the options, and the empty array is sent. *)
Lemma generateBatch_sends_unchecked_argument :
  exists b,
    generateBatch_body (client None) (Some []) (Some (Some ["a cat"])) batch_options
      = inr b /\
    b_prompts b = Some [].
Proof. by eexists. Qed.

Lemma ts_batch_validation_is_stricter_witness :
  ts_validateBatchOptions (Some ["a cat"; "a dog"]) batch_options = [] <->
  validateBatchOptions (Some ["a cat"; "a dog"]) batch_options = None /\
  outside (max_seq_length batch_options) 1 512 = false.
Proof.
  apply (ts_batch_validation_is_stricter (Some ["a cat"; "a dog"]) batch_options).
  reflexivity.
Defined.

Lemma makeRequest_first_decisive_witness :
  result (makeRequest no_error_property (client (Some 3%Q)) (busy_then_ready 2))
    = Returns "image" /\
  Z.of_nat (fetches (makeRequest no_error_property (client (Some 3%Q)) (busy_then_ready 2)))
    = 3%Z /\
  Z.of_nat (length (delays (makeRequest no_error_property (client (Some 3%Q))
                              (busy_then_ready 2))))
    = 2%Z.
Proof.
  apply (makeRequest_first_decisive no_error_property (client (Some 3%Q))
           (busy_then_ready 2) 2 (Returns "image")).
  - lia.
  - by vm_compute.
  - intros j Hj. unfold busy_then_ready.
    destruct (Z.ltb_spec j 2) as [_|Hge]; [|lia]. eexists. reflexivity.
  - reflexivity.
Defined.

Lemma makeRequest_exhausted_witness :
  result (makeRequest no_error_property (client (Some 2%Q)) unreachable)
    = Throws (Some {| name := "TypeError"; message := "fetch failed";
                      statusCode := None |}) /\
  Z.of_nat (fetches (makeRequest no_error_property (client (Some 2%Q)) unreachable))
    = 3%Z /\
  Z.of_nat (length (delays (makeRequest no_error_property (client (Some 2%Q)) unreachable)))
    = 2%Z.
Proof.
  assert (0 <= retryAttempts (client (Some 2%Q)))%Q as HR by (by vm_compute).
  destruct (makeRequest_exhausted no_error_property (client (Some 2%Q)) unreachable HR)
    as (_ & _ & Hint).
  { intros j _ _. eexists. reflexivity. }
  apply (Hint 2%Z); reflexivity.
Defined.

(** With [retryAttempts] 1.5 the loop waits after its last attempt; with
    0.5 and an answer 503 it ends without an error and throws
    [undefined]. *)
Lemma makeRequest_with_fractional_retries :
  (let r := makeRequest no_error_property (client (Some (3 # 2)%Q)) unreachable in
   fetches r = 2%nat /\ delays r = [1000; 2000]%Z) /\
  (let r := makeRequest no_error_property (client (Some (1 # 2)%Q)) (busy_then_ready 1) in
   result r = Throws None /\ fetches r = 1%nat /\ delays r = [5000]%Z).
Proof. done. Qed.

Lemma zero_retries_is_one_retry_witness :
  retryAttempts (client (Some 0%Q)) = 1%Q /\
  fetches (makeRequest no_error_property (client (Some 0%Q)) unreachable) = 2%nat.
Proof.
  apply (zero_retries_is_one_retry no_error_property).
  - right. by exists 0%Q.
  - eexists. reflexivity.
Defined.

End APIFacts.
